(** * A shallow embedding of [throttle.py]

    The decorator [throttle] rate-limits calls of a wrapped function through a
    shared cache and a named lock.  The embedding follows [src/throttle.py]:

    - timestamps, rates and delays are Python floats in the source; here they
      are rationals ([Q]) compared up to [==], so the arithmetic is exact;
    - the cache, its lock, the clock and [sleep] are external: they are the
      methods of a type class [Backend] over an abstract world, and the
      wrapper code is written in a state-and-error monad over that world;
    - every call the wrapper makes to the outside is appended to a trace, so
      that statements such as "no write happens" can be read off the trace;
    - the [while not done] loops take a fuel argument. *)

From Stdlib Require Import QArith Qminmax Qround Lqa.
From stdpp Require Import gmap strings list.

Local Open Scope Q_scope.

(** ** Python values used by the wrapper *)

(** Truth value of a number: [0] and [0.0] are falsy. *)
Definition truthy (x : Q) : bool := negb (Qeq_bool x 0).

(** [a > b] on numbers. *)
Definition Qgtb (a b : Q) : bool :=
  match a ?= b with Gt => true | _ => false end.

(** [x or d] where [x] is [None] or a number. *)
Definition num_or (x : option Q) (d : Q) : Q :=
  match x with
  | Some q => if truthy q then q else d
  | None => d
  end.

(** Truth value of the result of a key function: [None] and the empty string
    are falsy; a truthy result is the key itself. *)
Definition truthy_key (k : option string) : option string :=
  match k with
  | Some s => if decide (s = EmptyString) then None else Some s
  | None => None
  end.

(** The keyword arguments handed to [cache.lock]; an absent field is a
    keyword that is not passed. *)
Record LockArgs := mkLockArgs {
  la_timeout : option Q;
  la_blocking_timeout : option Q
}.

(** An empty dict is falsy. *)
Definition truthy_lockargs (a : LockArgs) : bool :=
  match la_timeout a, la_blocking_timeout a with
  | None, None => false
  | _, _ => true
  end.

(** What [log_message] formats into its first [%s]: the key itself, or the
    printed list of keys. *)
Inductive Shown :=
| ShownKey (k : string)
| ShownKeys (ks : list string).

(** The arguments of the format string
    ['"%s" throttle %s %s seconds' % (label, text, seconds)]. *)
Record Message := mkMessage {
  msg_label : Shown;
  msg_text : string;
  msg_seconds : Q
}.

Inductive Exn :=
| ThrottleTimeout (m : Message)
| LockError
| NameError (name : string)
| ZeroDivisionError
| AssertionError
| ValueError
| TypeError
| OtherError (tag : string).

(** ** The world outside the wrapper *)

Inductive Event :=
| EvTime (t : Q)
| EvSleep (d : Q)
| EvLock (name : string) (args : LockArgs) (acquired : bool)
| EvUnlock (name : string) (released : bool)
| EvGet (key : string) (default value : Q)
| EvSet (key : string) (value ttl : Q)
| EvInfo (m : Message)
| EvWarning (m : Message)
| EvCall.

(** The cache backend with its lock, and the clock.  [be_lock_enter] and
    [be_lock_exit] answer [false] when the lock raises its [LockError]. *)
Class Backend (W : Type) := {
  be_time : W -> Q * W;
  be_sleep : Q -> W -> W;
  be_get : string -> Q -> W -> Q * W;
  be_set : string -> Q -> Q -> W -> W;
  be_lock_enter : string -> LockArgs -> W -> bool * W;
  be_lock_exit : string -> W -> bool * W
}.

(** Module-level configuration read from the settings at import. *)
Record Settings := mkSettings {
  THROTTLE_ENABLED : bool;
  THROTTLE_LOGGING : bool
}.

(** ** The monad of the wrapper code *)

Inductive Outcome (A : Type) :=
| Ret (a : A)
| Raise (e : Exn)
| OutOfFuel.
Arguments Ret {A} a.
Arguments Raise {A} e.
Arguments OutOfFuel {A}.

Record St (W : Type) := mkSt {
  world : W;
  trace : list Event
}.
Arguments mkSt {W} world trace.
Arguments world {W} s.
Arguments trace {W} s.

Definition M (W A : Type) : Type := St W -> Outcome A * St W.

Definition ret {W A} (a : A) : M W A := fun s => (Ret a, s).

Definition raise {W A} (e : Exn) : M W A := fun s => (Raise e, s).

Definition out_of_fuel {W A} : M W A := fun s => (OutOfFuel, s).

Definition bind {W A B} (c : M W A) (k : A -> M W B) : M W B := fun s =>
  match c s with
  | (Ret a, s') => k a s'
  | (Raise e, s') => (Raise e, s')
  | (OutOfFuel, s') => (OutOfFuel, s')
  end.

Notation "x <- c ;; k" := (bind c (fun x => k))
  (at level 100, c at next level, right associativity).
Notation "c ;;; k" := (bind c (fun _ => k))
  (at level 100, right associativity).

(** Append an event to the trace. *)
Definition emit {W} (e : Event) : M W unit := fun s =>
  (Ret tt, mkSt (world s) (trace s ++ [e])).

(** [try: body finally: cleanup], where [cleanup] may itself raise. *)
Definition finally {W A} (body : M W A) (cleanup : M W unit) : M W A := fun s =>
  match body s with
  | (OutOfFuel, s') => (OutOfFuel, s')
  | (r, s') =>
      match cleanup s' with
      | (Ret _, s'') => (r, s'')
      | (Raise e, s'') => (Raise e, s'')
      | (OutOfFuel, s'') => (OutOfFuel, s'')
      end
  end.

Section Primitives.
Context {W : Type} `{Backend W}.

Definition time : M W Q := fun s =>
  let (t, w) := be_time (world s) in
  (Ret t, mkSt w (trace s ++ [EvTime t])).

Definition sleep (d : Q) : M W unit := fun s =>
  (Ret tt, mkSt (be_sleep d (world s)) (trace s ++ [EvSleep d])).

Definition cache_get (key : string) (default : Q) : M W Q := fun s =>
  let (v, w) := be_get key default (world s) in
  (Ret v, mkSt w (trace s ++ [EvGet key default v])).

Definition cache_set (key : string) (value ttl : Q) : M W unit := fun s =>
  (Ret tt, mkSt (be_set key value ttl (world s))
                (trace s ++ [EvSet key value ttl])).

Definition acquire (name : string) (args : LockArgs) : M W unit := fun s =>
  let (ok, w) := be_lock_enter name args (world s) in
  let s' := mkSt w (trace s ++ [EvLock name args ok]) in
  if ok then (Ret tt, s') else (Raise LockError, s').

Definition release (name : string) : M W unit := fun s =>
  let (ok, w) := be_lock_exit name (world s) in
  let s' := mkSt w (trace s ++ [EvUnlock name ok]) in
  if ok then (Ret tt, s') else (Raise LockError, s').

(** [with cache.lock(name, **args): body] *)
Definition with_lock {A} (name : string) (args : LockArgs) (body : M W A)
  : M W A :=
  acquire name args ;;; finally body (release name).
End Primitives.

(** ** The decorator *)

Section Throttle.
Context {Call Val W : Type} `{Backend W}.

(** A key function maps [(func, args, kwargs)], here an opaque [Call], to a
    cache key or to nothing. *)
Definition KeyFn : Type := Call -> option string.

(** A Python object returned by the wrapped function; [None] is [None]. *)
Definition Obj : Type := option Val.

(** The wrapped function acts on the world and returns or raises. *)
Definition Func : Type := Call -> W -> Outcome Obj * W.

Variable settings : Settings.

(** The default key function, imported from the cache module. *)
Variable cachekey_static : KeyFn.

(** The [limit] argument: one rate, or a tuple or list of rates. *)
Inductive LimitArg :=
| OneLimit (l : Q)
| ManyLimits (ls : list Q).

(** The [key] argument: a key function, a falsy value, or a tuple or list
    of key functions. *)
Inductive KeyArg :=
| KeyFunction (k : KeyFn)
| KeyNone
| KeyList (ks : list KeyFn).

(** What the closures [single_limit] and [multi_limit] capture: for one
    limit the numbers [minimum] and [expire] and the [key] argument, for
    several the list [limit] of [(minimum, key, expire)]. *)
Inductive Limits :=
| Single (minimum : Q) (key : KeyArg) (expire : Q)
| Multi (limit : list (Q * KeyFn * Q)).

Record Closure := mkClosure {
  limits : Limits;
  retry : bool;
  timeout : Q;
  marker : Obj;
  lockargs : LockArgs
}.

(** What [throttle] returns: [lambda func: func], or one of the two
    decorators with its closure. *)
Inductive Decorator :=
| Passthrough
| Throttled (c : Closure).

(** [1.0 / float(l)] *)
Definition reciprocal (l : Q) : Exn + Q :=
  if truthy l then inr (1 / l) else inl ZeroDivisionError.

(** [[1.0 / float(l) for l in limit]] *)
Fixpoint reciprocals (ls : list Q) : Exn + list Q :=
  match ls with
  | [] => inr []
  | l :: ls' =>
      match reciprocal l with
      | inl e => inl e
      | inr m =>
          match reciprocals ls' with
          | inl e => inl e
          | inr ms => inr (m :: ms)
          end
      end
  end.

(** [max(xs)] on a list: the first greatest element; an empty list raises. *)
Definition py_max (xs : list Q) : Exn + Q :=
  match xs with
  | [] => inl ValueError
  | x :: xs' => inr (fold_left Qmax xs' x)
  end.

(** [izip_longest(minimum, key, expire, fillvalue=cachekey_static)] where
    [key] is not longer than [minimum], and [expire] is as long as
    [minimum]. *)
Fixpoint zip_limits (minimum : list Q) (key : list KeyFn) (expire : list Q)
  : list (Q * KeyFn * Q) :=
  match minimum, expire with
  | m :: minimum', e :: expire' =>
      match key with
      | k :: key' => (m, k, e) :: zip_limits minimum' key' expire'
      | [] => (m, cachekey_static, e) :: zip_limits minimum' [] expire'
      end
  | _, _ => []
  end.

(** Lines 97 and 98: the overall timeout and the lock arguments. *)
Definition close (ls : Limits) (maximum : Q) (retry : bool)
    (timeout : option Q) (marker : Obj) (lockargs : option LockArgs)
  : Closure :=
  let timeout := num_or timeout (Qmax 10 (maximum * 10)) in
  let default := mkLockArgs (Some 1) (Some timeout) in
  let lockargs :=
    match lockargs with
    | Some a => if truthy_lockargs a then a else default
    | None => default
    end in
  mkClosure ls retry timeout marker lockargs.

Definition throttle (limit : LimitArg) (key : KeyArg) (retry : bool)
    (timeout : option Q) (marker : Obj) (lockargs : option LockArgs)
  : Exn + Decorator :=
  if negb (THROTTLE_ENABLED settings) then inr Passthrough else
  let _timeout := num_or timeout 10 in
  match limit with
  | ManyLimits limit =>
      let key :=
        match key with
        | KeyList ks => ks
        | KeyFunction k => [k]
        | KeyNone => []
        end in
      if (length key <=? length limit)%nat then
        match reciprocals limit with
        | inl e => inl e
        | inr minimum =>
            match py_max minimum with
            | inl e => inl e
            | inr maximum =>
                let expire := map (fun m => Qmax (10 * m) _timeout) minimum in
                let limit := zip_limits minimum key expire in
                inr (Throttled
                       (close (Multi limit) maximum retry timeout marker
                              lockargs))
            end
        end
      else inl AssertionError
  | OneLimit limit =>
      match reciprocal limit with
      | inl e => inl e
      | inr minimum =>
          let maximum := minimum in
          let expire := Qmax (10 * minimum) _timeout in
          inr (Throttled
                 (close (Single minimum key expire) maximum retry timeout
                        marker lockargs))
      end
  end.

(** *** Module-level logging helpers *)

(** The [label] handed to the logging helpers: the resolved key, or the
    list [_limits] of resolved [(minimum, key, expire)]. *)
Inductive Label :=
| LabelKey (k : string)
| LabelLimits (ls : list (Q * string * Q)).

Definition log_message (label : Label) (text : string) (seconds : Q)
  : Message :=
  match label with
  | LabelLimits ls => mkMessage (ShownKeys (map (fun i => i.1.2) ls)) text seconds
  | LabelKey k => mkMessage (ShownKey k) text seconds
  end.

(** The module binds the global name [log_message] only in the branch
    [if THROTTLE_LOGGING]; looking it up elsewhere is a [NameError]. *)
Definition global_log_message : option (Label -> string -> Q -> Message) :=
  if THROTTLE_LOGGING settings then Some log_message else None.

Definition log_info (label : Label) (text : string) (seconds : Q)
  : M W unit :=
  if THROTTLE_LOGGING settings
  then emit (EvInfo (log_message label text seconds))
  else ret tt.

Definition log_warning (message : Message) : M W unit :=
  if THROTTLE_LOGGING settings then emit (EvWarning message) else ret tt.

(** *** The closures of one [throttle] call *)

Section Closures.
Variable c : Closure.

Definition _now (label : Label) (start : Q) : M W Q :=
  now <- time ;;
  if Qgtb (now - start) (timeout c) then
    match global_log_message with
    | Some log_message =>
        let message := log_message label "timeout after"%string (now - start) in
        log_warning message ;;;
        raise (ThrottleTimeout message)
    | None => raise (NameError "log_message")
    end
  else ret now.

(** The call [func( *args, **kwargs)]. *)
Definition call_func (func : Func) (call : Call) : M W Obj := fun s =>
  let (r, w) := func call (world s) in
  (r, mkSt w (trace s ++ [EvCall])).

(** Lines 126 to 128: the gate for one limit, run while the lock is held. *)
Definition single_gate (minimum expire : Q) (_key : string) (now : Q)
  : M W Q :=
  last <- cache_get _key 0 ;;
  let delay := Qmax (last + minimum - now) 0 in
  if negb (truthy delay)
  then cache_set _key now expire ;;; ret delay
  else ret delay.

(** Lines 124 to 128: one pass of the loop up to the end of the [with]. *)
Definition single_pass (minimum expire : Q) (_key : string) (start : Q)
  : M W Q :=
  with_lock "throttle.lock" (lockargs c)
    (now <- _now (LabelKey _key) start ;;
     single_gate minimum expire _key now).

(** The loop of [single_limit]: [true] when it falls through to the call
    of [func], [false] at [return marker]. *)
Fixpoint single_loop (fuel : nat) (minimum expire : Q) (_key : string)
    (start : Q) : M W bool :=
  match fuel with
  | O => out_of_fuel
  | S fuel' =>
      delay <- single_pass minimum expire _key start ;;
      if truthy delay then
        if negb (retry c) then ret false
        else
          log_info (LabelKey _key) "retry in" delay ;;;
          sleep delay ;;;
          single_loop fuel' minimum expire _key start
      else ret true
  end.

Definition single_limit (minimum : Q) (key : KeyArg) (expire : Q)
    (fuel : nat) (func : Func) (call : Call) : M W Obj :=
  match key with
  | KeyFunction key =>
      match truthy_key (key call) with
      | Some _key =>
          start <- time ;;
          go <- single_loop fuel minimum expire _key start ;;
          if go then call_func func call else ret (marker c)
      | None => call_func func call
      end
  | _ => raise TypeError
  end.

(** Lines 157 to 164: the [for] loop over [_limits]; [seen] and [delay]
    are its two variables, and the result is [delay] when it ends. *)
Fixpoint multi_gate (now : Q) (_limits : list (Q * string * Q))
    (seen : gset string) (delay : Q) : M W Q :=
  match _limits with
  | [] => ret delay
  | (minimum, key, expire) :: rest =>
      if decide (key ∈ seen) then multi_gate now rest seen delay
      else
        let seen := seen ∪ {[key]} in
        last <- cache_get key 0 ;;
        let delay := Qmax (last + minimum - now) 0 in
        if truthy delay then ret delay
        else cache_set key now expire ;;; multi_gate now rest seen delay
  end.

Definition multi_pass (_limits : list (Q * string * Q)) (start : Q)
  : M W Q :=
  with_lock "throttle.lock" (lockargs c)
    (now <- _now (LabelLimits _limits) start ;;
     multi_gate now _limits ∅ 0).

Fixpoint multi_loop (fuel : nat) (_limits : list (Q * string * Q))
    (start : Q) : M W bool :=
  match fuel with
  | O => out_of_fuel
  | S fuel' =>
      delay <- multi_pass _limits start ;;
      if truthy delay then
        if negb (retry c) then ret false
        else
          log_info (LabelLimits _limits) "retry in" delay ;;;
          sleep delay ;;;
          multi_loop fuel' _limits start
      else ret true
  end.

(** The two list comprehensions that resolve the keys and drop the limits
    whose key is falsy. *)
Definition resolve (limit : list (Q * KeyFn * Q)) (call : Call)
  : list (Q * string * Q) :=
  omap (fun '(minimum, key, expire) =>
          match truthy_key key with
          | Some key => Some (minimum, key, expire)
          | None => None
          end)
       (map (fun '(minimum, key, expire) => (minimum, key call, expire))
            limit).

Definition multi_limit (limit : list (Q * KeyFn * Q)) (fuel : nat)
    (func : Func) (call : Call) : M W Obj :=
  let _limits := resolve limit call in
  match _limits with
  | _ :: _ =>
      start <- time ;;
      go <- multi_loop fuel _limits start ;;
      if go then call_func func call else ret (marker c)
  | [] => call_func func call
  end.
End Closures.

(** The decorated function: [throttle(...)(func)]. *)
Definition decorate (d : Decorator) (fuel : nat) (func : Func) (call : Call)
  : M W Obj :=
  match d with
  | Passthrough => call_func func call
  | Throttled c =>
      match limits c with
      | Single minimum key expire =>
          single_limit c minimum key expire fuel func call
      | Multi limit => multi_limit c limit fuel func call
      end
  end.
End Throttle.

(** ** A deterministic backend

    A backend in the manner of [MockLockableCache] of [test_throttle.py]:
    a dictionary [_cache], the switches [blocked] and [limited], and a clock
    that only [sleep] advances.  [set] stores the value and keeps no expiry
    time, the lock is free whenever it is not [blocked]. *)
Module Mock.
Record World := mkWorld {
  clock : Q;
  blocked : bool;
  limited : bool;
  _cache : gmap string Q;
  held : bool
}.

Definition get (key : string) (dflt : Q) (w : World) : Q * World :=
  if limited w then (clock w, w)
  else (default dflt (_cache w !! key), w).

Definition put (key : string) (value ttl : Q) (w : World) : World :=
  mkWorld (clock w) (blocked w) (limited w) (<[key := value]> (_cache w))
          (held w).

Definition do_acquire (name : string) (args : LockArgs) (w : World)
  : bool * World :=
  if blocked w then (false, w)
  else if held w then (false, w)
  else (true, mkWorld (clock w) (blocked w) (limited w) (_cache w) true).

Definition do_release (name : string) (w : World) : bool * World :=
  if held w
  then (true, mkWorld (clock w) (blocked w) (limited w) (_cache w) false)
  else (false, w).

Definition advance (d : Q) (w : World) : World :=
  mkWorld (Qred (clock w + d)) (blocked w) (limited w) (_cache w) (held w).

#[global] Instance backend : Backend World := {
  be_time w := (clock w, w);
  be_sleep := advance;
  be_get := get;
  be_set := put;
  be_lock_enter := do_acquire;
  be_lock_exit := do_release
}.

(** A fresh cache, as after [reset], with the clock at [t]. *)
Definition reset (t : Q) (blocked limited : bool) : St World :=
  mkSt (mkWorld t blocked limited ∅ false) [].

(** A wrapped function that returns [v] and leaves the world alone. *)
Definition const_func {Call Val} (v : Val) : @Func Call Val World :=
  fun _ w => (Ret (Some v), w).
End Mock.

(** ** Sample configurations *)

Module Sample.
Definition enabled : Settings := mkSettings true true.

(** The settings of the module when django is not installed. *)
Definition unlogged : Settings := mkSettings true false.

(** A key function with one bucket for all calls, and one that opts out. *)
Definition static : @KeyFn unit := fun _ => Some "static"%string.

Definition no_key : @KeyFn unit := fun _ => None.

Definition func : @Func unit nat Mock.World := Mock.const_func 7%nat.

(** [throttle(10, cache=mock_cache, timeout=.5)], as in the tests. *)
Definition ten (settings : Settings) (retry : bool) : Exn + Decorator :=
  throttle (Val := nat) settings static (OneLimit 10) (KeyFunction static)
           retry (Some (1 # 2)) None None.

(** The closure of [ten]. *)
Definition ten_closure (retry : bool) : @Closure unit nat :=
  mkClosure (Single (1 / 10) (KeyFunction static) (Qmax (10 * (1 / 10)) (1 # 2)))
            retry (1 # 2) None (mkLockArgs (Some 1) (Some (1 # 2))).

(** The closure of [throttle(10, key=no_key)]. *)
Definition opted_out : @Closure unit nat :=
  mkClosure (Single (1 / 10) (KeyFunction no_key) (Qmax (10 * (1 / 10)) 10))
            true (Qmax 10 (1 / 10 * 10)) None
            (mkLockArgs (Some 1) (Some (Qmax 10 (1 / 10 * 10)))).

(** [throttle([0.5, 10])]: one call in two seconds and ten calls a second. *)
Definition slow_and_fast : Exn + Decorator :=
  throttle (Val := nat) enabled static (ManyLimits [1 # 2; 10])
           (KeyFunction static) true None None None.

Definition slow_and_fast_closure : @Closure unit nat :=
  mkClosure (Multi [(1 / (1 # 2), static, Qmax (10 * (1 / (1 # 2))) 10);
                    (1 / 10, static, Qmax (10 * (1 / 10)) 10)])
            true (Qmax 10 (Qmax (1 / (1 # 2)) (1 / 10) * 10)) None
            (mkLockArgs (Some 1)
                        (Some (Qmax 10 (Qmax (1 / (1 # 2)) (1 / 10) * 10)))).

(** A cache that holds the timestamp [100] for the key, the lock held. *)
Definition warm : St Mock.World :=
  mkSt (Mock.mkWorld (201 # 2) false false {["static"%string := 100]} true) [].

(** The state after the clock read of a call on a cache that is always
    limited, the delay of its first pass and the state after that pass. *)
Definition limited_start : St Mock.World :=
  Eval vm_compute in (time (Mock.reset 100 false true)).2.

Definition limited_pass : Outcome Q * St Mock.World :=
  Eval vm_compute in
    single_pass enabled (ten_closure false) (1 / 10)
                (Qmax (10 * (1 / 10)) (1 # 2)) "static" 100 limited_start.
End Sample.

(** ** Vocabulary of the statements *)

(** The limits of [_limits] that a pass can look at: for every key its first
    limit, in the order of the list, the keys of [seen] left out. *)
Fixpoint distinct (seen : gset string) (ls : list (Q * string * Q))
  : list (Q * string * Q) :=
  match ls with
  | [] => []
  | l :: ls' =>
      if decide (l.1.2 ∈ seen) then distinct seen ls'
      else l :: distinct (seen ∪ {[l.1.2]}) ls'
  end.

(** The delay of the limit [l] when the cache answers [last]. *)
Definition delay_of (now : Q) (l : Q * string * Q) (last : Q) : Q :=
  Qmax (last + l.1.1 - now) 0.

(** The trace of a limit that read [p.2] and claimed its slot. *)
Definition claimed (now : Q) (p : (Q * string * Q) * Q) : list Event :=
  [EvGet p.1.1.2 0 p.2; EvSet p.1.1.2 now p.1.2].

(** The trace of a limit that read [p.2] and was refused. *)
Definition refused (p : (Q * string * Q) * Q) : list Event :=
  [EvGet p.1.1.2 0 p.2].

(** The cache reads and writes of the key [k]. *)
Definition is_get (k : string) (ev : Event) : bool :=
  match ev with
  | EvGet k' _ _ => bool_decide (k' = k)
  | _ => false
  end.

Definition is_set (k : string) (ev : Event) : bool :=
  match ev with
  | EvSet k' _ _ => bool_decide (k' = k)
  | _ => false
  end.

Definition on_key (k : string) (ev : Event) : bool :=
  is_get k ev || is_set k ev.

(** What the events of the key [k] in a pass may be, [l] being the first
    limit of that key. *)
Definition once (now : Q) (k : string) (l : option (nat * (Q * string * Q)))
    (evs : list Event) : Prop :=
  match l with
  | None => evs = []
  | Some (_, l) =>
      evs = [] \/
      exists last,
        evs = EvGet k 0 last ::
              (if truthy (delay_of now l last) then [] else [EvSet k now l.2])
  end.

(** The number of times the wrapped function was called. *)
Definition calls (t : list Event) : nat :=
  length (List.filter (fun ev => match ev with EvCall => true | _ => false end) t).

(** A computation that leaves the number of calls as it is. *)
Definition quiet {W A} (m : M W A) : Prop :=
  forall s, calls (trace (m s).2) = calls (trace s).

Section CallVocabulary.
Context {Call Val W : Type} `{Backend W}.
Variable settings : Settings.
Variable c : @Closure Call Val.
Variable call : Call.

(** The key function opts out of rate limiting for this call. *)
Definition absent (kf : @KeyFn Call) : Prop := truthy_key (kf call) = None.

(** No limit of the closure has a key for this call. *)
Definition unkeyed : Prop :=
  match limits c with
  | Single _ (KeyFunction kf) _ => absent kf
  | Single _ _ _ => False
  | Multi limit => Forall (fun l => absent l.1.2) limit
  end.

(** Some limit of the closure has a key for this call. *)
Definition keyed : Prop :=
  match limits c with
  | Single _ (KeyFunction kf) _ => ~ absent kf
  | Single _ _ _ => False
  | Multi limit => Exists (fun l => ~ absent l.1.2) limit
  end.

(** The first pass of the loop, entered at [start] in the state [s1], leaves
    the [with] block with [delay] in the state [s2]. *)
Definition first_pass (start : Q) (s1 : St W) (delay : Q) (s2 : St W) : Prop :=
  match limits c with
  | Single minimum (KeyFunction kf) expire =>
      exists _key,
        truthy_key (kf call) = Some _key
        /\ single_pass settings c minimum expire _key start s1 = (Ret delay, s2)
  | Single _ _ _ => False
  | Multi limit =>
      resolve limit call <> []
      /\ multi_pass settings c (resolve limit call) start s1 = (Ret delay, s2)
  end.
End CallVocabulary.

Section WrapVocabulary.
Context {Call Val : Type}.

(** The list of key functions that a list of limits is zipped with. *)
Definition key_list (key : @KeyArg Call) : list (@KeyFn Call) :=
  match key with
  | KeyList ks => ks
  | KeyFunction k => [k]
  | KeyNone => []
  end.

(** The configurations that [throttle] refuses: a rate of zero, more key
    functions than limits, or an empty list of limits. *)
Definition bad_config (limit : LimitArg) (key : @KeyArg Call) : Prop :=
  match limit with
  | OneLimit l => l == 0
  | ManyLimits ls =>
      (length ls < length (key_list key))%nat
      \/ Exists (fun l => l == 0) ls
      \/ ls = []
  end.

(** The pairs [(minimum, expire)] of the limits of a closure. *)
Definition intervals (c : @Closure Call Val) : list (Q * Q) :=
  match limits c with
  | Single minimum _ expire => [(minimum, expire)]
  | Multi limit => map (fun l => (l.1.1, l.2)) limit
  end.

(** One limit, or a timeout that is given and not falsy. *)
Definition timeout_is_floor (limit : LimitArg) (timeout : option Q) : bool :=
  match limit, timeout with
  | OneLimit _, _ => true
  | ManyLimits _, Some t => truthy t
  | ManyLimits _, None => false
  end.
End WrapVocabulary.

(** ** Vocabulary of the further properties *)

(** All rates are positive. *)
Definition positive_rates (limit : LimitArg) : Prop :=
  match limit with
  | OneLimit l => 0 < l
  | ManyLimits ls => Forall (fun l => 0 < l) ls
  end.

(** The lock protocol read off a trace.  [held] tells whether the lock is
    held before the first event; the result is whether it is held after the
    last one, or nothing when some event is out of place: the cache is read
    and written and the timeout warning is logged only while the lock is
    held; the lock is taken only when it is not held; the process sleeps,
    logs a retry and calls the wrapped function only when it is not held.
    Releasing gives the lock up whether or not the backend reports an
    error. *)
Fixpoint protocol (held : bool) (t : list Event) : option bool :=
  match t with
  | [] => Some held
  | ev :: t' =>
      match ev, held with
      | EvTime _, _ => protocol held t'
      | EvLock _ _ acquired, false => protocol acquired t'
      | EvUnlock _ _, true => protocol false t'
      | EvGet _ _ _, true => protocol true t'
      | EvSet _ _ _, true => protocol true t'
      | EvWarning _, true => protocol true t'
      | EvSleep _, false => protocol false t'
      | EvInfo _, false => protocol false t'
      | EvCall, false => protocol false t'
      | _, _ => None
      end
  end.

(** A computation that starts and ends with the lock in the state [held],
    whatever its outcome, and follows the protocol in between. *)
Definition keeps {W A} (held : bool) (m : M W A) : Prop :=
  forall s, exists new,
    trace (m s).2 = trace s ++ new /\ protocol held new = Some held.

(** A computation that calls the wrapped function once or not at all. *)
Definition calls_once {W A} (m : M W A) : Prop :=
  forall s,
    calls (trace (m s).2) = calls (trace s)
    \/ calls (trace (m s).2) = S (calls (trace s)).

(** What [log_message] shows of a label. *)
Definition shown (label : Label) : Shown :=
  match label with
  | LabelLimits ls => ShownKeys (map (fun i => i.1.2) ls)
  | LabelKey k => ShownKey k
  end.

Section ErrorVocabulary.
Context {Call Val : Type}.
Variable settings : Settings.
Variable c : @Closure Call Val.

(** The errors that the throttle itself raises, with what the message
    would show and the trace [t] at the moment of the error: a timeout,
    logged and raised past the deadline and after the lock is released; the
    missing [log_message] when logging is off; a lock that could not be taken
    or released; a [key] argument that cannot be called. *)
Definition raised_by_throttle (label : option Shown) (t : list Event)
    (e : Exn) : Prop :=
  match e with
  | ThrottleTimeout m =>
      THROTTLE_LOGGING settings = true
      /\ timeout c < msg_seconds m
      /\ msg_text m = "timeout after"%string
      /\ label = Some (msg_label m)
      /\ exists t', t = t' ++ [EvWarning m; EvUnlock "throttle.lock" true]
  | NameError name =>
      THROTTLE_LOGGING settings = false
      /\ name = "log_message"%string
      /\ exists t' now, t = t' ++ [EvTime now; EvUnlock "throttle.lock" true]
  | LockError =>
      exists t',
        t = t' ++ [EvLock "throttle.lock" (lockargs c) false]
        \/ t = t' ++ [EvUnlock "throttle.lock" false]
  | TypeError => label = None
  | _ => False
  end.

(** What the timeout message shows for a call: the key, or the list of the
    keys of [_limits]; nothing when the [key] argument of a single limit is
    not a function. *)
Definition resolved_label (call : Call) : option Shown :=
  match limits c with
  | Single _ (KeyFunction kf) _ => ShownKey <$> truthy_key (kf call)
  | Single _ _ _ => None
  | Multi limit => Some (shown (LabelLimits (resolve limit call)))
  end.
End ErrorVocabulary.

(** A world of the deterministic backend whose cache always reports a call
    at the current time, with the lock free. *)
Definition limited_world (w : Mock.World) : Prop :=
  Mock.limited w = true /\ Mock.blocked w = false /\ Mock.held w = false.

(** Further sample configurations. *)
Module SampleMore.
(** The settings with throttling switched off. *)
Definition disabled : Settings := mkSettings false true.

(** A call of [Sample.ten] on a fresh cache: the state after the clock read
    and the outcome of the first pass. *)
Definition fresh_start : St Mock.World :=
  Eval vm_compute in (time (Mock.reset 100 false false)).2.

Definition fresh_pass : Outcome Q * St Mock.World :=
  Eval vm_compute in
    single_pass Sample.enabled (Sample.ten_closure true) (1 / 10)
                (Qmax (10 * (1 / 10)) (1 # 2)) "static" 100 fresh_start.

(** The call of [test_throttle_limited] run to its end. *)
Definition limited_end : Outcome (@Obj nat) * St Mock.World :=
  Eval vm_compute in
    decorate Sample.enabled (Throttled (Sample.ten_closure true)) 10
             Sample.func tt (Mock.reset 100 false true).

(** A limited cache one second after the start of a call. *)
Definition late : St Mock.World := Mock.reset 101 false true.
End SampleMore.

(** * Properties *)

(** ** Numbers *)

Lemma truthy_false (x : Q) : truthy x = false <-> x == 0.
Proof.
  unfold truthy. rewrite negb_false_iff. apply Qeq_bool_iff.
Qed.

Lemma truthy_true (x : Q) : truthy x = true <-> ~ x == 0.
Proof.
  rewrite <- truthy_false. destruct (truthy x); split; congruence.
Qed.

Lemma Qgtb_true (a b : Q) : Qgtb a b = true <-> b < a.
Proof.
  unfold Qgtb. rewrite (Qgt_alt a b).
  destruct (a ?= b); split; congruence.
Qed.

Lemma Qgtb_false (a b : Q) : Qgtb a b = false <-> a <= b.
Proof.
  unfold Qgtb. rewrite (Qle_alt a b).
  destruct (a ?= b); split; congruence.
Qed.

Lemma Qmax_0_nonneg (x : Q) : 0 <= Qmax x 0.
Proof. apply Q.le_max_r. Qed.

Lemma Qmax_0_pos (x : Q) : 0 < x -> Qmax x 0 == x.
Proof. intros Hx. apply Q.max_l. apply Qlt_le_weak, Hx. Qed.

Lemma Qmax_0_neg (x : Q) : x <= 0 -> Qmax x 0 == 0.
Proof. intros Hx. apply Q.max_r, Hx. Qed.

(** ** The gate for one limit *)

Section GateProperties.
Context {W : Type} `{Backend W}.

Lemma single_gate_run (minimum expire : Q) (key : string) (now : Q)
    (s : St W) :
  single_gate minimum expire key now s =
    let last := (be_get key 0 (world s)).1 in
    let w := (be_get key 0 (world s)).2 in
    let delay := Qmax (last + minimum - now) 0 in
    (Ret delay,
     if Qeq_bool delay 0
     then mkSt (be_set key now expire w)
               (trace s ++ [EvGet key 0 last; EvSet key now expire])
     else mkSt w (trace s ++ [EvGet key 0 last])).
Proof.
  unfold single_gate, bind, cache_get, cache_set, ret, truthy.
  destruct (be_get key 0 (world s)) as [last w]. cbn [fst snd].
  rewrite negb_involutive.
  destruct (Qeq_bool (Qmax (last + minimum - now) 0) 0); cbn.
  - now rewrite <- app_assoc.
  - reflexivity.
Qed.

End GateProperties.

(** ** The gate for several limits *)

Section MultiGateProperties.
Context {W : Type} `{Backend W}.

Lemma multi_gate_skip (now : Q) (l : Q * string * Q)
    (rest : list (Q * string * Q)) (seen : gset string) (d0 : Q) (s : St W) :
  l.1.2 ∈ seen ->
  multi_gate now (l :: rest) seen d0 s = multi_gate now rest seen d0 s.
Proof.
  destruct l as [[m k] e]. cbn. intros Hin.
  destruct (decide (k ∈ seen)); [reflexivity | contradiction].
Qed.

Lemma multi_gate_refuse (now : Q) (l : Q * string * Q)
    (rest : list (Q * string * Q)) (seen : gset string) (d0 : Q) (s : St W) :
  l.1.2 ∉ seen ->
  truthy (delay_of now l (be_get l.1.2 0 (world s)).1) = true ->
  multi_gate now (l :: rest) seen d0 s =
    (Ret (delay_of now l (be_get l.1.2 0 (world s)).1),
     mkSt (be_get l.1.2 0 (world s)).2
          (trace s ++ refused (l, (be_get l.1.2 0 (world s)).1))).
Proof.
  destruct l as [[m k] e]. unfold delay_of, refused. cbn. intros Hin Hd.
  destruct (decide (k ∈ seen)); [contradiction|].
  unfold bind, cache_get. destruct (be_get k 0 (world s)) as [v w].
  cbn in *. rewrite Hd. reflexivity.
Qed.

Lemma multi_gate_claim (now : Q) (l : Q * string * Q)
    (rest : list (Q * string * Q)) (seen : gset string) (d0 : Q) (s : St W) :
  l.1.2 ∉ seen ->
  truthy (delay_of now l (be_get l.1.2 0 (world s)).1) = false ->
  multi_gate now (l :: rest) seen d0 s =
    multi_gate now rest (seen ∪ {[l.1.2]})
      (delay_of now l (be_get l.1.2 0 (world s)).1)
      (mkSt (be_set l.1.2 now l.2 (be_get l.1.2 0 (world s)).2)
            (trace s ++ claimed now (l, (be_get l.1.2 0 (world s)).1))).
Proof.
  destruct l as [[m k] e]. unfold delay_of, claimed. cbn. intros Hin Hd.
  destruct (decide (k ∈ seen)); [contradiction|].
  unfold bind, cache_get, cache_set.
  destruct (be_get k 0 (world s)) as [v w].
  cbn in *. rewrite Hd. cbn. now rewrite <- app_assoc.
Qed.

Lemma multi_gate_shape (now : Q) (limits : list (Q * string * Q))
    (seen : gset string) (d0 : Q) (s : St W) :
  exists passed blocked later d s',
    multi_gate now limits seen d0 s = (Ret d, s')
    /\ distinct seen limits = map fst passed ++ map fst blocked ++ later
    /\ Forall (fun p => delay_of now p.1 p.2 == 0) passed
    /\ trace s' =
         trace s ++ flat_map (claimed now) passed ++ flat_map refused blocked
    /\ match blocked with
       | [] => later = [] /\ (d = d0 \/ d == 0)
       | [b] => d = delay_of now b.1 b.2 /\ 0 < d
       | _ => False
       end.
Proof.
  revert seen d0 s. induction limits as [|l rest IH]; intros seen d0 s.
  - exists [], [], [], d0, s. cbn. rewrite app_nil_r.
    repeat split; auto.
  - destruct (decide (l.1.2 ∈ seen)) as [Hin|Hin].
    + rewrite multi_gate_skip by exact Hin. cbn [distinct].
      destruct (decide (l.1.2 ∈ seen)); [|contradiction]. apply IH.
    + cbn [distinct]. destruct (decide (l.1.2 ∈ seen)); [contradiction|].
      set (last := (be_get l.1.2 0 (world s)).1).
      destruct (truthy (delay_of now l last)) eqn:Hd.
      * rewrite multi_gate_refuse by assumption. fold last.
        exists [], [(l, last)], (distinct (seen ∪ {[l.1.2]}) rest).
        eexists _, _. split; [reflexivity|]. cbn.
        split; [reflexivity|]. split; [constructor|].
        split; [reflexivity|]. split; [reflexivity|].
        apply truthy_true in Hd. pose proof (Qmax_0_nonneg (last + l.1.1 - now)).
        unfold delay_of in *. lra.
      * rewrite multi_gate_claim by assumption. fold last.
        destruct (IH (seen ∪ {[l.1.2]}) (delay_of now l last)
                     (mkSt (be_set l.1.2 now l.2 (be_get l.1.2 0 (world s)).2)
                           (trace s ++ claimed now (l, last))))
          as (passed & blocked & later & d & s' & Hrun & Hdist & Hall & Htr & Hend).
        apply truthy_false in Hd.
        exists ((l, last) :: passed), blocked, later, d, s'.
        split; [exact Hrun|]. split; [cbn; now rewrite Hdist|].
        split; [constructor; [exact Hd | exact Hall]|].
        split.
        { rewrite Htr. cbn [trace flat_map]. now rewrite <- !app_assoc. }
        destruct blocked as [|b [|b' blocked]]; [|exact Hend|exact Hend].
        destruct Hend as [Hl [Hd0 | Hd0]]; split; auto.
        right. rewrite Hd0. exact Hd.
Qed.

Lemma distinct_sublist (seen : gset string) (ls : list (Q * string * Q)) :
  sublist (distinct seen ls) ls.
Proof.
  revert seen. induction ls as [|l ls IH]; intros seen; cbn.
  - constructor.
  - destruct (decide (l.1.2 ∈ seen)).
    + apply sublist_cons, IH.
    + apply sublist_skip, IH.
Qed.


Lemma filter_narrow {A} (f g : A -> bool) (l : list A) :
  (forall x, f x = true -> g x = true) ->
  List.filter f (List.filter g l) = List.filter f l.
Proof.
  intros Hfg. induction l as [|x l IH]; cbn; [reflexivity|].
  destruct (g x) eqn:Hg; cbn.
  - now rewrite IH.
  - destruct (f x) eqn:Hf; [|exact IH].
    apply Hfg in Hf. congruence.
Qed.

Lemma on_key_claimed (now : Q) (k : string) (l : Q * string * Q) (last : Q) :
  List.filter (on_key k) (claimed now (l, last)) =
    if decide (l.1.2 = k) then claimed now (l, last) else [].
Proof.
  unfold claimed, on_key. cbn.
  destruct (decide (l.1.2 = k)) as [Hk|Hk].
  - now rewrite !bool_decide_eq_true_2 by exact Hk.
  - now rewrite !bool_decide_eq_false_2 by exact Hk.
Qed.

Lemma on_key_refused (k : string) (l : Q * string * Q) (last : Q) :
  List.filter (on_key k) (refused (l, last)) =
    if decide (l.1.2 = k) then refused (l, last) else [].
Proof.
  unfold refused, on_key. cbn.
  destruct (decide (l.1.2 = k)) as [Hk|Hk].
  - now rewrite !bool_decide_eq_true_2 by exact Hk.
  - now rewrite !bool_decide_eq_false_2 by exact Hk.
Qed.

Lemma once_shift (now : Q) (k : string) (l : option (nat * (Q * string * Q)))
    (evs : list Event) :
  once now k l evs -> once now k (prod_map S id <$> l) evs.
Proof. destruct l as [[i l]|]; cbn; auto. Qed.

Lemma once_nil (now : Q) (k : string) (l : option (nat * (Q * string * Q))) :
  once now k l [].
Proof. destruct l as [[i l]|]; cbn; auto. Qed.

Lemma multi_gate_key_once (now : Q) (limits : list (Q * string * Q))
    (seen : gset string) (d0 : Q) (s : St W) (k : string) :
  exists new,
    trace (multi_gate now limits seen d0 s).2 = trace s ++ new
    /\ if decide (k ∈ seen) then List.filter (on_key k) new = []
       else once now k (list_find (fun l => l.1.2 = k) limits)
                 (List.filter (on_key k) new).
Proof.
  revert seen d0 s. induction limits as [|l rest IH]; intros seen d0 s.
  - exists []. cbn. rewrite app_nil_r. split; [reflexivity|].
    destruct (decide (k ∈ seen)); reflexivity.
  - destruct (decide (l.1.2 ∈ seen)) as [Hin|Hin].
    + rewrite multi_gate_skip by exact Hin.
      destruct (IH seen d0 s) as (new & Htr & Hk). exists new.
      split; [exact Htr|]. destruct (decide (k ∈ seen)); [exact Hk|].
      cbn [list_find]. destruct (decide (l.1.2 = k)) as [<-|Hne];
        [contradiction|]. now apply once_shift.
    + set (last := (be_get l.1.2 0 (world s)).1).
      destruct (truthy (delay_of now l last)) eqn:Hd.
      * rewrite multi_gate_refuse by assumption. fold last.
        exists (refused (l, last)). split; [reflexivity|].
        rewrite on_key_refused. cbn [list_find].
        destruct (decide (l.1.2 = k)) as [<-|Hne].
        -- destruct (decide (l.1.2 ∈ seen)); [contradiction|].
           cbn. right. exists last. now rewrite Hd.
        -- destruct (decide (k ∈ seen)); [reflexivity|]. apply once_nil.
      * rewrite multi_gate_claim by assumption. fold last.
        destruct (IH (seen ∪ {[l.1.2]}) (delay_of now l last)
                     (mkSt (be_set l.1.2 now l.2 (be_get l.1.2 0 (world s)).2)
                           (trace s ++ claimed now (l, last))))
          as (new & Htr & Hk).
        exists (claimed now (l, last) ++ new).
        split; [rewrite Htr; cbn [trace]; now rewrite <- app_assoc|].
        rewrite List.filter_app, on_key_claimed. cbn [list_find].
        destruct (decide (l.1.2 = k)) as [<-|Hne].
        -- destruct (decide (l.1.2 ∈ seen ∪ {[l.1.2]})); [|set_solver].
           rewrite Hk, app_nil_r.
           destruct (decide (l.1.2 ∈ seen)); [contradiction|].
           cbn. right. exists last. now rewrite Hd.
        -- cbn [app]. destruct (decide (k ∈ seen ∪ {[l.1.2]})) as [Hin'|Hin'];
             destruct (decide (k ∈ seen)) as [Hin''|Hin''].
           ++ exact Hk.
           ++ exfalso. apply elem_of_union in Hin' as [Hin'|Hin'];
                [contradiction|]. apply elem_of_singleton in Hin'. congruence.
           ++ exfalso. apply Hin', elem_of_union. now left.
           ++ now apply once_shift.
Qed.

(** C3.  In one pass the events of a key [k] are none, or one read, or one
    read followed by one write; the limit that is read, and written with its
    own expiry, is the first limit of [_limits] with that key.  So a key is
    read at most once and written at most once. *)
Theorem multi_gate_once (now : Q) (limits : list (Q * string * Q))
    (s : St W) (k : string) :
  exists new,
    trace (multi_gate now limits ∅ 0 s).2 = trace s ++ new
    /\ (length (List.filter (is_get k) new) <= 1)%nat
    /\ (length (List.filter (is_set k) new) <= 1)%nat
    /\ once now k (list_find (fun l => l.1.2 = k) limits)
             (List.filter (on_key k) new).
Proof.
  destruct (multi_gate_key_once now limits ∅ 0 s k) as (new & Htr & Hk).
  destruct (decide (k ∈ (∅ : gset string))); [set_solver|].
  exists new. split; [exact Htr|].
  assert (Hget : forall ev, is_get k ev = true -> on_key k ev = true).
  { intros ev Hev. unfold on_key. now rewrite Hev. }
  assert (Hset : forall ev, is_set k ev = true -> on_key k ev = true).
  { intros ev Hev. unfold on_key. rewrite Hev. apply orb_true_r. }
  rewrite <- (filter_narrow _ _ new Hget), <- (filter_narrow _ _ new Hset).
  split; [|split; [|exact Hk]].
  - destruct (list_find _ limits) as [[i l]|]; cbn in Hk.
    + destruct Hk as [-> | [last ->]]; cbn; [lia|].
      rewrite bool_decide_eq_true_2 by reflexivity.
      destruct (truthy _); cbn; lia.
    + rewrite Hk. cbn. lia.
  - destruct (list_find _ limits) as [[i l]|]; cbn in Hk.
    + destruct Hk as [-> | [last ->]]; cbn; [lia|].
      destruct (truthy _); cbn; [lia|].
      rewrite bool_decide_eq_true_2 by reflexivity. cbn. lia.
    + rewrite Hk. cbn. lia.
Qed.
End MultiGateProperties.

(** ** Computations that do not call the wrapped function *)

Section Quiet.
Context {W : Type} `{Backend W}.

Lemma calls_snoc (t : list Event) (ev : Event) :
  ev <> EvCall -> calls (t ++ [ev]) = calls t.
Proof.
  intros Hev. unfold calls. rewrite List.filter_app, length_app.
  destruct ev; cbn; try lia. congruence.
Qed.

Lemma quiet_ret {A} (a : A) : quiet (@ret W A a).
Proof. intros s. reflexivity. Qed.

Lemma quiet_raise {A} (e : Exn) : quiet (@raise W A e).
Proof. intros s. reflexivity. Qed.

Lemma quiet_bind {A B} (m : M W A) (k : A -> M W B) :
  quiet m -> (forall a, quiet (k a)) -> quiet (bind m k).
Proof.
  intros Hm Hk s. unfold bind. specialize (Hm s).
  destruct (m s) as [[a|e|] s']; cbn in *; [|exact Hm|exact Hm].
  rewrite Hk. exact Hm.
Qed.

Lemma quiet_finally {A} (body : M W A) (cleanup : M W unit) :
  quiet body -> quiet cleanup -> quiet (finally body cleanup).
Proof.
  intros Hb Hc s. unfold finally. specialize (Hb s).
  destruct (body s) as [r s']. specialize (Hc s'). cbn in *.
  destruct r, (cleanup s') as [[u|e'|] s'']; cbn in *; congruence.
Qed.

Lemma quiet_emit (ev : Event) : ev <> EvCall -> quiet (@emit W ev).
Proof. intros Hev s. cbn. now apply calls_snoc. Qed.

Lemma quiet_time : quiet time.
Proof.
  intros s. unfold time. destruct (be_time (world s)). cbn.
  now apply calls_snoc.
Qed.

Lemma quiet_sleep (d : Q) : quiet (sleep d).
Proof. intros s. cbn. now apply calls_snoc. Qed.

Lemma quiet_cache_get (key : string) (dflt : Q) : quiet (cache_get key dflt).
Proof.
  intros s. unfold cache_get. destruct (be_get key dflt (world s)). cbn.
  now apply calls_snoc.
Qed.

Lemma quiet_cache_set (key : string) (value ttl : Q) :
  quiet (cache_set key value ttl).
Proof. intros s. cbn. now apply calls_snoc. Qed.

Lemma quiet_acquire (name : string) (args : LockArgs) :
  quiet (acquire name args).
Proof.
  intros s. unfold acquire. destruct (be_lock_enter name args (world s)) as [[|] w];
    cbn; now apply calls_snoc.
Qed.

Lemma quiet_release (name : string) : quiet (release name).
Proof.
  intros s. unfold release. destruct (be_lock_exit name (world s)) as [[|] w];
    cbn; now apply calls_snoc.
Qed.

Lemma quiet_with_lock {A} (name : string) (args : LockArgs) (body : M W A) :
  quiet body -> quiet (with_lock name args body).
Proof.
  intros Hb. unfold with_lock. apply quiet_bind; [apply quiet_acquire|].
  intros _. apply quiet_finally; [exact Hb | apply quiet_release].
Qed.
End Quiet.

Create HintDb quiet.
#[local] Hint Resolve quiet_ret quiet_raise quiet_time quiet_sleep
  quiet_cache_get quiet_cache_set quiet_acquire quiet_release : quiet.

(** ** Passes and invocations *)

Section Invocation.
Context {Call Val W : Type} `{Backend W}.
Variable settings : Settings.
Variable c : @Closure Call Val.

Lemma _now_run (label : Label) (start : Q) (s : St W) :
  _now settings c label start s =
    let now := (be_time (world s)).1 in
    let w := (be_time (world s)).2 in
    if Qgtb (now - start) (timeout c) then
      if THROTTLE_LOGGING settings then
        let message := log_message label "timeout after" (now - start) in
        (Raise (ThrottleTimeout message),
         mkSt w (trace s ++ [EvTime now; EvWarning message]))
      else (Raise (NameError "log_message"), mkSt w (trace s ++ [EvTime now]))
    else (Ret now, mkSt w (trace s ++ [EvTime now])).
Proof.
  unfold _now, bind, time, global_log_message, log_warning.
  destruct (be_time (world s)) as [now w]. cbn [fst snd].
  destruct (Qgtb (now - start) (timeout c)); [|reflexivity].
  destruct (THROTTLE_LOGGING settings); cbn; [|reflexivity].
  now rewrite <- app_assoc.
Qed.

Lemma quiet_now (label : Label) (start : Q) :
  quiet (_now settings c label start).
Proof.
  intros s. rewrite _now_run. cbv zeta.
  destruct (Qgtb _ _); [destruct (THROTTLE_LOGGING settings)|]; cbn [snd trace].
  - change (trace s ++ [EvTime (be_time (world s)).1;
                        EvWarning (log_message label "timeout after"
                                     ((be_time (world s)).1 - start))])
      with (trace s ++ [EvTime (be_time (world s)).1] ++
              [EvWarning (log_message label "timeout after"
                                     ((be_time (world s)).1 - start))]).
    rewrite app_assoc, !calls_snoc; congruence.
  - now apply calls_snoc.
  - now apply calls_snoc.
Qed.

Lemma quiet_single_gate (minimum expire : Q) (key : string) (now : Q) :
  quiet (single_gate minimum expire key now).
Proof.
  unfold single_gate. apply quiet_bind; [auto with quiet|]. intros last.
  destruct (negb _); [apply quiet_bind|]; auto with quiet.
Qed.

Lemma quiet_multi_gate (now : Q) (limits : list (Q * string * Q))
    (seen : gset string) (d0 : Q) :
  quiet (multi_gate now limits seen d0).
Proof.
  revert seen d0. induction limits as [|[[m k] e] rest IH]; intros seen d0.
  - apply quiet_ret.
  - cbn. destruct (decide (k ∈ seen)); [apply IH|].
    apply quiet_bind; [auto with quiet|]. intros last.
    destruct (truthy _); [auto with quiet|].
    apply quiet_bind; [auto with quiet|]. intros _. apply IH.
Qed.

Lemma quiet_single_pass (minimum expire : Q) (key : string) (start : Q) :
  quiet (single_pass settings c minimum expire key start).
Proof.
  apply quiet_with_lock, quiet_bind; [apply quiet_now|].
  intros now. apply quiet_single_gate.
Qed.

Lemma quiet_multi_pass (limits : list (Q * string * Q)) (start : Q) :
  quiet (multi_pass settings c limits start).
Proof.
  apply quiet_with_lock, quiet_bind; [apply quiet_now|].
  intros now. apply quiet_multi_gate.
Qed.

Lemma resolve_nil (limit : list (Q * KeyFn * Q)) (call : Call) :
  Forall (fun l => absent call l.1.2) limit -> resolve limit call = [].
Proof.
  unfold resolve, absent. induction 1 as [|[[m kf] e] limit Hl _ IH]; cbn in *.
  - reflexivity.
  - rewrite Hl. exact IH.
Qed.

Lemma resolve_cons (limit : list (Q * KeyFn * Q)) (call : Call) :
  Exists (fun l => ~ absent call l.1.2) limit -> resolve limit call <> [].
Proof.
  unfold resolve, absent. induction 1 as [[[m kf] e] limit Hl|[[m kf] e] limit _ IH];
    cbn in *.
  - destruct (truthy_key (kf call)); [discriminate | congruence].
  - destruct (truthy_key (kf call)); [discriminate | exact IH].
Qed.

Lemma time_run (s : St W) :
  time s =
    (Ret (be_time (world s)).1,
     mkSt (be_time (world s)).2 (trace s ++ [EvTime (be_time (world s)).1])).
Proof. unfold time. now destruct (be_time (world s)). Qed.

(** C5.  With [retry=False], when the first pass of the gate returns a
    positive delay, the decorated function returns [marker] as its normal
    result, in the state the pass left, and the wrapped function has not
    been called; for one limit and for several. *)
Theorem no_retry_returns_marker (fuel : nat) (func : Func) (call : Call)
    (start delay : Q) (s s1 s2 : St W) :
  retry c = false ->
  time s = (Ret start, s1) ->
  first_pass settings c call start s1 delay s2 ->
  0 < delay ->
  decorate settings (Throttled c) (S fuel) func call s = (Ret (marker c), s2)
  /\ calls (trace s2) = calls (trace s).
Proof.
  intros Hretry Htime Hpass Hdelay.
  assert (Ht : truthy delay = true) by (apply truthy_true; lra).
  assert (Hs1 : calls (trace s1) = calls (trace s)).
  { pose proof (quiet_time s) as Hq. now rewrite Htime in Hq. }
  unfold decorate, first_pass in *.
  destruct (limits c) as [minimum [kf| |ks] expire|limit]; try contradiction.
  - destruct Hpass as (_key & Hkey & Hpass).
    pose proof (quiet_single_pass minimum expire _key start s1) as Hq.
    rewrite Hpass in Hq. cbn in Hq.
    unfold single_limit. rewrite Hkey. unfold bind at 1. rewrite Htime.
    cbn [single_loop]. unfold bind. rewrite Hpass, Ht, Hretry. cbn.
    split; [reflexivity | congruence].
  - destruct Hpass as (Hkeyed & Hpass).
    pose proof (quiet_multi_pass (resolve limit call) start s1) as Hq.
    rewrite Hpass in Hq. cbn in Hq.
    unfold multi_limit.
    destruct (resolve limit call) as [|l _limits] eqn:Hres; [congruence|].
    unfold bind at 1. rewrite Htime.
    cbn [multi_loop]. unfold bind. rewrite Hpass, Ht, Hretry. cbn.
    split; [reflexivity | congruence].
Qed.

Lemma with_lock_refused {A} (args : LockArgs) (body : M W A) (s : St W) :
  (be_lock_enter "throttle.lock" args (world s)).1 = false ->
  with_lock "throttle.lock" args body s =
    (Raise LockError,
     mkSt (be_lock_enter "throttle.lock" args (world s)).2
          (trace s ++ [EvLock "throttle.lock" args false])).
Proof.
  intros Hno. unfold with_lock, bind, acquire.
  destruct (be_lock_enter "throttle.lock" args (world s)) as [ok w].
  cbn in Hno. subst ok. reflexivity.
Qed.


(** C9.  When the key function gives no key, or every key function of the
    limits gives none, the decorated function is the call of the wrapped
    function and nothing else: its outcome is returned as it is and the
    trace grows by that call alone, with no clock read, no lock and no
    cache access. *)
Theorem unkeyed_call_is_unthrottled (fuel : nat) (func : Func) (call : Call)
    (s : St W) :
  unkeyed c call ->
  decorate settings (Throttled c) fuel func call s =
    ((func call (world s)).1,
     mkSt (func call (world s)).2 (trace s ++ [EvCall])).
Proof.
  intros Hun. unfold decorate, unkeyed in *.
  assert (Hcall : call_func func call s =
            ((func call (world s)).1,
             mkSt (func call (world s)).2 (trace s ++ [EvCall]))).
  { unfold call_func. now destruct (func call (world s)). }
  destruct (limits c) as [minimum [kf| |ks] expire|limit]; try contradiction.
  - unfold single_limit, absent in *. now rewrite Hun.
  - unfold multi_limit. now rewrite (resolve_nil _ _ Hun).
Qed.
End Invocation.

(** ** Wrapping *)

Section Wrapping.
Context {Call Val : Type}.
Variable settings : Settings.
Variable cachekey_static : @KeyFn Call.

Lemma reciprocals_inr (ls ms : list Q) :
  reciprocals ls = inr ms ->
  Forall (fun l => ~ l == 0) ls /\ ms = map (fun l => 1 / l) ls.
Proof.
  revert ms. induction ls as [|l ls IH]; intros ms; cbn.
  - intros [= <-]. split; [constructor | reflexivity].
  - unfold reciprocal. destruct (truthy l) eqn:Hl; [|discriminate].
    destruct (reciprocals ls) as [e|ms']; [discriminate|].
    intros [= <-]. destruct (IH ms' eq_refl) as [Hall ->].
    split; [|reflexivity]. constructor; [now apply truthy_true | exact Hall].
Qed.

Lemma reciprocals_inl (ls : list Q) (e : Exn) :
  reciprocals ls = inl e -> Exists (fun l => l == 0) ls.
Proof.
  revert e. induction ls as [|l ls IH]; intros e; cbn; [discriminate|].
  unfold reciprocal. destruct (truthy l) eqn:Hl.
  - destruct (reciprocals ls) as [e'|ms']; [|discriminate].
    intros _. right. now apply (IH e').
  - intros _. left. now apply truthy_false.
Qed.

Lemma intervals_zip (f : Q -> Q) (ms : list Q) (ks : list (@KeyFn Call)) :
  map (fun l : Q * KeyFn * Q => (l.1.1, l.2))
      (zip_limits cachekey_static ms ks (map f ms)) =
    map (fun m => (m, f m)) ms.
Proof.
  revert ks. induction ms as [|m ms IH]; intros ks; cbn; [reflexivity|].
  destruct ks as [|k ks]; cbn; now rewrite IH.
Qed.

(** What a successful [throttle] has computed. *)
Lemma throttle_inr (limit : LimitArg) (key : KeyArg) (retry : bool)
    (tmo : option Q) (marker : @Obj Val) (lockargs : option LockArgs)
    (c : Closure) :
  throttle settings cachekey_static limit key retry tmo marker lockargs =
    inr (Throttled c) ->
  exists ms maximum,
    match limit with
    | OneLimit l => reciprocals [l] = inr ms
    | ManyLimits ls => reciprocals ls = inr ms
    end
    /\ py_max ms = inr maximum
    /\ intervals c = map (fun m => (m, Qmax (10 * m) (num_or tmo 10))) ms
    /\ timeout c = num_or tmo (Qmax 10 (maximum * 10)).
Proof.
  unfold throttle. destruct (THROTTLE_ENABLED settings); [|discriminate].
  cbn [negb]. destruct limit as [l|ls].
  - cbn [reciprocals]. destruct (reciprocal l) as [e|m]; [discriminate|].
    intros [= <-]. exists [m], m. repeat split; reflexivity.
  - destruct (_ <=? _)%nat; [|discriminate].
    destruct (reciprocals ls) as [e|ms]; [discriminate|].
    destruct (py_max ms) as [e|maximum] eqn:Hmax; [discriminate|].
    intros [= <-]. exists ms, maximum.
    split; [reflexivity|]. split; [exact Hmax|]. split; [|reflexivity].
    unfold intervals. cbn. apply intervals_zip.
Qed.


Lemma py_max_single (m maximum : Q) : py_max [m] = inr maximum -> maximum = m.
Proof. cbn. now intros [= <-]. Qed.

Lemma num_or_falsy (t d : Q) : t == 0 -> num_or (Some t) d = d.
Proof. intros Ht. cbn. apply truthy_false in Ht. now rewrite Ht. Qed.

Lemma expiry_single (m : Q) :
  Qmax (10 * m) 10 == Qmax (10 * m) (Qmax 10 (m * 10))
  /\ Qmax 10 (m * 10) <= Qmax (10 * m) 10.
Proof.
  pose proof (Q.max_spec 10 (m * 10)).
  pose proof (Q.max_spec (10 * m) 10).
  pose proof (Q.max_spec (10 * m) (Qmax 10 (m * 10))).
  split; lra.
Qed.

(** The expiry and the overall timeout of a closure. *)
Lemma throttle_expiry (limit : LimitArg) (key : KeyArg) (retry : bool)
    (tmo : option Q) (marker : @Obj Val) (lockargs : option LockArgs)
    (c : Closure) :
  throttle settings cachekey_static limit key retry tmo marker lockargs =
    inr (Throttled c) ->
  Forall (fun p => p.2 = Qmax (10 * p.1) (num_or tmo 10)
                   /\ 10 * p.1 <= p.2 /\ num_or tmo 10 <= p.2)
         (intervals c)
  /\ (exists maximum,
        py_max (map fst (intervals c)) = inr maximum
        /\ timeout c = num_or tmo (Qmax 10 (maximum * 10))).
Proof.
  intros Hthr.
  destruct (throttle_inr _ _ _ _ _ _ _ Hthr)
    as (ms & maximum & Hrec & Hmax & Hint & Htmo).
  rewrite Hint, Htmo. split.
  - apply Forall_map, Forall_forall. intros m _. cbn.
    split; [reflexivity|]. split; [apply Q.le_max_l | apply Q.le_max_r].
  - exists maximum. rewrite map_map. cbn. rewrite map_id.
    split; [exact Hmax | reflexivity].
Qed.


End Wrapping.

(** ** The deadline check *)

Section Deadline.
Context {W : Type} `{Backend W} {Call Val : Type}.
Variable settings : Settings.
Variable c : @Closure Call Val.

(** Past the deadline the pass stops before its gate [k]: the lock is taken,
    the clock is read, and the lock is released.  With logging switched on
    the warning is logged and [ThrottleTimeout] is raised with the label and
    the elapsed time; with logging switched off the global [log_message]
    does not exist and the pass raises [NameError]. *)
Lemma pass_past_deadline (label : Label) (start : Q) (k : Q -> M W Q)
    (s : St W) :
  (be_lock_enter "throttle.lock" (lockargs c) (world s)).1 = true ->
  timeout c <
    (be_time (be_lock_enter "throttle.lock" (lockargs c) (world s)).2).1
    - start ->
  with_lock "throttle.lock" (lockargs c)
    (now <- _now settings c label start ;; k now) s =
    let w1 := (be_lock_enter "throttle.lock" (lockargs c) (world s)).2 in
    let now := (be_time w1).1 in
    let message := log_message label "timeout after" (now - start) in
    let released := be_lock_exit "throttle.lock" (be_time w1).2 in
    (Raise (if released.1
            then if THROTTLE_LOGGING settings
                 then ThrottleTimeout message
                 else NameError "log_message"
            else LockError),
     mkSt released.2
          (trace s
             ++ [EvLock "throttle.lock" (lockargs c) true; EvTime now]
             ++ (if THROTTLE_LOGGING settings then [EvWarning message] else [])
             ++ [EvUnlock "throttle.lock" released.1])).
Proof.
  intros Hok Hlate. unfold with_lock, bind at 1, acquire.
  destruct (be_lock_enter "throttle.lock" (lockargs c) (world s)) as [ok w1].
  cbn [fst snd] in *. subst ok. cbn [world trace].
  unfold finally, bind. rewrite _now_run. cbn [world trace].
  apply Qgtb_true in Hlate. cbv zeta. rewrite Hlate.
  unfold release.
  destruct (THROTTLE_LOGGING settings); cbn [world trace fst snd];
    destruct (be_lock_exit "throttle.lock" (be_time w1).2) as [[|] w3];
    cbn [fst snd]; now rewrite <- !app_assoc.
Qed.

(** Within the deadline the pass raises no timeout: it goes on to the gate
    [k] with the time that was read, while the lock is held. *)
Lemma pass_within_deadline (label : Label) (start : Q) (k : Q -> M W Q)
    (s : St W) :
  (be_lock_enter "throttle.lock" (lockargs c) (world s)).1 = true ->
  (be_time (be_lock_enter "throttle.lock" (lockargs c) (world s)).2).1
    - start <= timeout c ->
  with_lock "throttle.lock" (lockargs c)
    (now <- _now settings c label start ;; k now) s =
    let w1 := (be_lock_enter "throttle.lock" (lockargs c) (world s)).2 in
    let now := (be_time w1).1 in
    finally (k now) (release "throttle.lock")
      (mkSt (be_time w1).2
            (trace s ++ [EvLock "throttle.lock" (lockargs c) true; EvTime now])).
Proof.
  intros Hok Hin. unfold with_lock, bind at 1, acquire.
  destruct (be_lock_enter "throttle.lock" (lockargs c) (world s)) as [ok w1].
  cbn [fst snd] in *. subst ok. cbn [world trace].
  unfold finally, bind. rewrite _now_run. cbn [world trace].
  apply Qgtb_false in Hin. cbv zeta. rewrite Hin.
  now rewrite <- !app_assoc.
Qed.
End Deadline.

(** ** The tests of the repository and sample calls *)

(** The sample closures are what [throttle] returns. *)
Example ten_closure_ok (retry : bool) :
  Sample.ten Sample.enabled retry = inr (Throttled (Sample.ten_closure retry)).
Proof. reflexivity. Qed.

Example opted_out_ok :
  throttle Sample.enabled Sample.static (OneLimit 10)
           (KeyFunction Sample.no_key) true None None None =
    inr (Throttled Sample.opted_out).
Proof. reflexivity. Qed.

(** One pass of [throttle([10, 100])], both limits on the static key, as in
    [test_throttle_multi]: the key is read and written once, with the
    interval and the expiry of the first limit. *)
Example multi_gate_shared_key :
  multi_gate 100 [(1 # 10, "static"%string, 10); (1 # 100, "static"%string, 10)]
             ∅ 0 (Mock.reset 100 false false) =
    (Ret (Qmax (0 + (1 # 10) - 100) 0),
     mkSt (Mock.mkWorld 100 false false {["static"%string := 100]} false)
          [EvGet "static" 0 0; EvSet "static" 100 10]).
Proof. vm_compute. reflexivity. Qed.

(** A pass over two keys where the second key is still limited: the first
    slot is written, the second is only read, and its delay is returned. *)
Example multi_gate_second_blocks :
  (multi_gate 100 [(1 # 10, "a"%string, 10); (1, "b"%string, 10)] ∅ 0
              (mkSt (Mock.mkWorld 100 false false {["b"%string := 99 + (1 # 2)]}
                                  false) [])).1 = Ret (1 # 2)
  /\ trace (multi_gate 100 [(1 # 10, "a"%string, 10); (1, "b"%string, 10)] ∅ 0
              (mkSt (Mock.mkWorld 100 false false {["b"%string := 99 + (1 # 2)]}
                                  false) [])).2 =
       [EvGet "a" 0 0; EvSet "a" 100 10; EvGet "b" 0 (99 + (1 # 2))].
Proof. split; vm_compute; reflexivity. Qed.

(** [test_throttle_limited], logging switched on: a cache that always
    reports a recent call makes the call time out, 0.6 seconds after its
    start with a timeout of 0.5 and steps of 0.1. *)
Example test_throttle_limited :
  (decorate Sample.enabled (Throttled (Sample.ten_closure true)) 10
            Sample.func tt (Mock.reset 100 false true)).1 =
    Raise (ThrottleTimeout (mkMessage (ShownKey "static") "timeout after" (3 # 5))).
Proof. vm_compute. reflexivity. Qed.

(** [test_throttle_blocked]: a lock that cannot be taken raises
    [LockError]. *)
Example test_throttle_blocked :
  (decorate Sample.enabled (Throttled (Sample.ten_closure true)) 10
            Sample.func tt (Mock.reset 100 true false)).1 =
    Raise LockError.
Proof. vm_compute. reflexivity. Qed.

(** C4.  The module as it is loaded without django has
    [THROTTLE_LOGGING = False].  There the call of [test_throttle_limited],
    past its deadline, does not raise [ThrottleTimeout]: [_now] looks up the
    global [log_message], which that configuration never defines, and the
    call ends in [NameError]. *)
Theorem timeout_without_logging :
  Sample.ten Sample.unlogged true = inr (Throttled (Sample.ten_closure true))
  /\ (decorate Sample.unlogged (Throttled (Sample.ten_closure true)) 10
               Sample.func tt (Mock.reset 100 false true)).1 =
       Raise (NameError "log_message").
Proof. split; [reflexivity|]. vm_compute. reflexivity. Qed.


(** [throttle(10, retry=False, timeout=.5)] on a cache that is always
    limited returns [None], the default marker, after one pass. *)
Lemma no_retry_returns_marker_witness :
  retry (Sample.ten_closure false) = false
  /\ first_pass Sample.enabled (Sample.ten_closure false) tt 100
                Sample.limited_start (1 # 10) Sample.limited_pass.2
  /\ decorate Sample.enabled (Throttled (Sample.ten_closure false)) 1
              Sample.func tt (Mock.reset 100 false true) =
       (Ret None, Sample.limited_pass.2)
  /\ calls (trace Sample.limited_pass.2) =
       calls (trace (Mock.reset 100 false true)).
Proof.
  assert (Hpass : first_pass Sample.enabled (Sample.ten_closure false) tt 100
                    Sample.limited_start (1 # 10) Sample.limited_pass.2).
  { exists "static"%string. split; vm_compute; reflexivity. }
  split; [reflexivity|]. split; [exact Hpass|].
  apply (no_retry_returns_marker Sample.enabled (Sample.ten_closure false) 0
           Sample.func tt 100 (1 # 10) (Mock.reset 100 false true)
           Sample.limited_start Sample.limited_pass.2).
  - reflexivity.
  - vm_compute. reflexivity.
  - exact Hpass.
  - reflexivity.
Defined.


(** A call whose key function opts out runs the wrapped function alone. *)
Lemma unkeyed_call_is_unthrottled_witness :
  unkeyed Sample.opted_out tt
  /\ decorate Sample.enabled (Throttled Sample.opted_out) 0 Sample.func tt
              (Mock.reset 100 false false) =
       (Ret (Some 7%nat), mkSt (world (Mock.reset 100 false false)) [EvCall]).
Proof.
  assert (Hun : unkeyed Sample.opted_out tt) by reflexivity.
  split; [exact Hun|].
  rewrite (unkeyed_call_is_unthrottled Sample.enabled Sample.opted_out 0
             Sample.func tt (Mock.reset 100 false false) Hun).
  reflexivity.
Defined.







(** * Further properties *)

(** ** Wrapping: the switch, the limits and the timeout *)

Section WrappingMore.
Context {Call Val : Type}.
Variable settings : Settings.
Variable cachekey_static : @KeyFn Call.

(** With [THROTTLE_ENABLED] off, [throttle] validates nothing and returns
    the identity decorator for every argument, a zero rate included; the
    decorated function is then the wrapped function and nothing else. *)
Theorem disabled_is_passthrough {W : Type} `{Backend W} (limit : LimitArg)
    (key : KeyArg) (retry : bool) (tmo : option Q) (marker : @Obj Val)
    (lockargs : option LockArgs) (fuel : nat) (func : Func) (call : Call)
    (s : St W) :
  THROTTLE_ENABLED settings = false ->
  exists d,
    throttle settings cachekey_static limit key retry tmo marker lockargs =
      inr d
    /\ decorate settings d fuel func call s =
         ((func call (world s)).1,
          mkSt (func call (world s)).2 (trace s ++ [EvCall])).
Proof.
  intros Hoff. exists Passthrough. unfold throttle. rewrite Hoff. cbn.
  split; [reflexivity|]. unfold call_func. now destruct (func call (world s)).
Qed.

Lemma zip_limits_imap (r g : Q -> Q) (ls : list Q) (ks : list (@KeyFn Call)) :
  zip_limits cachekey_static (map r ls) ks (map g (map r ls)) =
    imap (fun i l => (r l, default cachekey_static (ks !! i), g (r l))) ls.
Proof.
  revert ks. induction ls as [|l ls IH]; intros ks; [reflexivity|].
  cbn [map zip_limits imap]. destruct ks as [|k ks]; cbn [lookup default];
    rewrite IH; f_equal; apply imap_ext; intros i x _; reflexivity.
Qed.

(** A list of rates gives one limit for each rate, in the order of the
    list: the limit at position [i] has the interval [1 / rate], the key
    function given at position [i], or [cachekey_static] when the list of
    key functions is shorter, and the expiry
    [max(10 * interval, timeout or 10)]. *)
Theorem multi_limits_aligned (ls : list Q) (key : KeyArg) (retry : bool)
    (tmo : option Q) (marker : @Obj Val) (lockargs : option LockArgs)
    (c : Closure) :
  throttle settings cachekey_static (ManyLimits ls) key retry tmo marker
           lockargs = inr (Throttled c) ->
  limits c =
    Multi (imap (fun i l =>
                   (1 / l, default cachekey_static (key_list key !! i),
                    Qmax (10 * (1 / l)) (num_or tmo 10)))
                ls).
Proof.
  unfold throttle. destruct (THROTTLE_ENABLED settings); [|discriminate].
  cbn [negb]. fold (key_list key).
  destruct (_ <=? _)%nat; [|discriminate].
  destruct (reciprocals ls) as [e|ms] eqn:Hrec; [discriminate|].
  destruct (py_max ms) as [e|maximum]; [discriminate|].
  intros [= <-]. cbn [limits close]. f_equal.
  apply reciprocals_inr in Hrec as [_ ->].
  apply (zip_limits_imap (fun l => 1 / l)
                         (fun m => Qmax (10 * m) (num_or tmo 10))).
Qed.

Lemma reciprocal_pos (l : Q) : 0 < l -> 0 < 1 / l.
Proof.
  intros Hl. unfold Qdiv. rewrite Qmult_1_l. now apply Qinv_lt_0_compat.
Qed.

(** Positive rates give positive intervals and positive expiries. *)
Theorem positive_rates_positive_intervals (limit : LimitArg) (key : KeyArg)
    (retry : bool) (tmo : option Q) (marker : @Obj Val)
    (lockargs : option LockArgs) (c : Closure) :
  throttle settings cachekey_static limit key retry tmo marker lockargs =
    inr (Throttled c) ->
  positive_rates limit ->
  Forall (fun p => 0 < p.1 /\ 0 < p.2) (intervals c).
Proof.
  intros Hthr Hpos.
  destruct (throttle_inr _ _ _ _ _ _ _ _ _ Hthr)
    as (ms & maximum & Hrec & _ & -> & _).
  assert (Hms : Forall (fun m => 0 < m) ms).
  { destruct limit as [l|ls]; apply reciprocals_inr in Hrec as [_ ->];
      cbn in Hpos.
    - repeat constructor. now apply reciprocal_pos.
    - apply Forall_map. eapply Forall_impl; [exact Hpos|].
      intros l Hl. now apply reciprocal_pos. }
  apply Forall_map. eapply Forall_impl; [exact Hms|].
  intros m Hm. cbn in Hm |- *. split; [exact Hm|].
  pose proof (Q.le_max_l (10 * m) (num_or tmo 10)). lra.
Qed.

Lemma fold_left_Qmax_ge (xs : list Q) (x : Q) :
  x <= fold_left Qmax xs x /\ Forall (fun y => y <= fold_left Qmax xs x) xs.
Proof.
  revert x. induction xs as [|y xs IH]; intros x; cbn.
  - split; [apply Qle_refl | constructor].
  - destruct (IH (Qmax x y)) as [Hx Hall].
    pose proof (Q.le_max_l x y). pose proof (Q.le_max_r x y).
    split; [lra|]. constructor; [lra | exact Hall].
Qed.

Lemma py_max_ge (ms : list Q) (maximum : Q) :
  py_max ms = inr maximum -> Forall (fun m => m <= maximum) ms.
Proof.
  destruct ms as [|m ms]; cbn; [discriminate|]. intros [= <-].
  destruct (fold_left_Qmax_ge ms m) as [Hm Hall]. now constructor.
Qed.

(** The overall timeout is the timeout given by the caller when that is
    not falsy; otherwise it is at least 10 and at least ten times the
    interval of every limit.  Unless the caller gives lock arguments, the
    lock is asked to expire after one second and to wait for it as long as
    the overall timeout. *)
Theorem overall_timeout (limit : LimitArg) (key : KeyArg) (retry : bool)
    (tmo : option Q) (marker : @Obj Val) (largs : option LockArgs)
    (c : Closure) :
  throttle settings cachekey_static limit key retry tmo marker largs =
    inr (Throttled c) ->
  (if match tmo with Some t => truthy t | None => false end
   then Some (timeout c) = tmo
   else 10 <= timeout c
        /\ Forall (fun p => 10 * p.1 <= timeout c) (intervals c))
  /\ Some (lockargs c) =
       (if match largs with Some a => truthy_lockargs a | None => false end
        then largs
        else Some (mkLockArgs (Some 1) (Some (timeout c)))).
Proof.
  intros Hthr. split.
  - destruct (throttle_inr _ _ _ _ _ _ _ _ _ Hthr)
      as (ms & maximum & _ & Hmax & -> & ->).
    assert (Hdefault :
              10 <= Qmax 10 (maximum * 10)
              /\ Forall (fun p : Q * Q => 10 * p.1 <= Qmax 10 (maximum * 10))
                        (map (fun m => (m, Qmax (10 * m) (num_or tmo 10))) ms)).
    { split; [apply Q.le_max_l|]. apply Forall_map.
      eapply Forall_impl; [exact (py_max_ge _ _ Hmax)|].
      intros m Hm. cbn in Hm |- *.
      pose proof (Q.le_max_r 10 (maximum * 10)). lra. }
    destruct tmo as [t|]; cbn [num_or] in *; [|exact Hdefault].
    destruct (truthy t); [reflexivity | exact Hdefault].
  - revert Hthr. unfold throttle.
    destruct (THROTTLE_ENABLED settings); [|discriminate]. cbn [negb].
    destruct limit as [l|ls].
    + destruct (reciprocal l); [discriminate|]. intros [= <-]. cbn.
      destruct largs as [a|]; [destruct (truthy_lockargs a)|]; reflexivity.
    + destruct (_ <=? _)%nat; [|discriminate].
      destruct (reciprocals ls); [discriminate|].
      destruct (py_max _); [discriminate|]. intros [= <-]. cbn.
      destruct largs as [a|]; [destruct (truthy_lockargs a)|]; reflexivity.
Qed.
End WrappingMore.

(** ** The gate: limits that share a key, and a list of one limit *)

Section GateMore.
Context {W : Type} `{Backend W}.

Lemma multi_gate_distinct_from (now : Q) (limits : list (Q * string * Q))
    (seen : gset string) (d0 : Q) (s : St W) :
  multi_gate now limits seen d0 s =
    multi_gate now (distinct seen limits) seen d0 s.
Proof.
  revert seen d0 s. induction limits as [|[[m k] e] rest IH]; intros seen d0 s;
    [reflexivity|].
  cbn. destruct (decide (k ∈ seen)) as [Hin|Hin]; [apply IH|].
  cbn. destruct (decide (k ∈ seen)); [contradiction|].
  unfold bind. destruct (cache_get k 0 s) as [[last| |] s1]; try reflexivity.
  destruct (truthy _); [reflexivity|].
  destruct (cache_set k now e s1) as [[[]| |] s2]; try reflexivity.
  apply IH.
Qed.

Lemma distinct_keys (seen : gset string) (ls : list (Q * string * Q)) :
  NoDup (map (fun l => l.1.2) (distinct seen ls))
  /\ Forall (fun l => l.1.2 ∉ seen) (distinct seen ls).
Proof.
  revert seen. induction ls as [|l ls IH]; intros seen; cbn.
  - split; constructor.
  - destruct (decide (l.1.2 ∈ seen)) as [Hin|Hin]; [apply IH|].
    destruct (IH (seen ∪ {[l.1.2]})) as [Hnd Hall]. cbn. split.
    + constructor; [|exact Hnd]. intros Hk.
      apply list_elem_of_fmap in Hk as (l' & Hkey & Hl').
      rewrite Forall_forall in Hall. apply (Hall l' Hl').
      rewrite <- Hkey. apply elem_of_union. right. now apply elem_of_singleton.
    + constructor; [exact Hin|]. eapply Forall_impl; [exact Hall|].
      intros l' Hl' Hin'. apply Hl', elem_of_union. now left.
Qed.

(** A limit listed after another limit with the same key has no effect on
    a pass: the pass over [_limits] is the pass over the list that keeps
    only the first limit of every key, a sublist of [_limits] in which no
    key occurs twice. *)
Theorem multi_gate_ignores_later_duplicates (now : Q)
    (limits : list (Q * string * Q)) (s : St W) :
  multi_gate now limits ∅ 0 s = multi_gate now (distinct ∅ limits) ∅ 0 s
  /\ sublist (distinct ∅ limits) limits
  /\ NoDup (map (fun l => l.1.2) (distinct ∅ limits)).
Proof.
  split; [apply multi_gate_distinct_from|].
  split; [apply distinct_sublist | apply distinct_keys].
Qed.

(** The gate of [multi_limit] on a list of one limit is the gate of
    [single_limit]: same result, same cache accesses, same final state. *)
Theorem multi_gate_of_one_limit (minimum expire : Q) (key : string) (now : Q)
    (s : St W) :
  multi_gate now [(minimum, key, expire)] ∅ 0 s =
    single_gate minimum expire key now s.
Proof.
  rewrite single_gate_run. cbn.
  destruct (decide (key ∈ (∅ : gset string))) as [Hin|_]; [set_solver|].
  unfold bind, cache_get, cache_set, ret, truthy.
  destruct (be_get key 0 (world s)) as [last w]. cbn [fst snd].
  destruct (Qeq_bool (Qmax (last + minimum - now) 0) 0); cbn;
    [now rewrite <- app_assoc | reflexivity].
Qed.
End GateMore.

(** ** Invocations: the call of the wrapped function *)

Section InvocationMore.
Context {Call Val W : Type} `{Backend W}.
Variable settings : Settings.
Variable c : @Closure Call Val.

Lemma quiet_log_info (label : Label) (text : string) (seconds : Q) :
  quiet (@log_info W settings label text seconds).
Proof.
  unfold log_info. destruct (THROTTLE_LOGGING settings);
    [now apply quiet_emit | apply quiet_ret].
Qed.

Lemma quiet_single_loop (fuel : nat) (minimum expire : Q) (key : string)
    (start : Q) :
  quiet (single_loop settings c fuel minimum expire key start).
Proof.
  induction fuel as [|fuel IH]; [intros s; reflexivity|].
  cbn [single_loop]. apply quiet_bind; [apply quiet_single_pass|].
  intros delay. destruct (truthy delay); [|apply quiet_ret].
  destruct (negb (retry c)); [apply quiet_ret|].
  apply quiet_bind; [apply quiet_log_info|]. intros _.
  apply quiet_bind; [apply quiet_sleep | intros _; exact IH].
Qed.

Lemma quiet_multi_loop (fuel : nat) (limits : list (Q * string * Q))
    (start : Q) :
  quiet (multi_loop settings c fuel limits start).
Proof.
  induction fuel as [|fuel IH]; [intros s; reflexivity|].
  cbn [multi_loop]. apply quiet_bind; [apply quiet_multi_pass|].
  intros delay. destruct (truthy delay); [|apply quiet_ret].
  destruct (negb (retry c)); [apply quiet_ret|].
  apply quiet_bind; [apply quiet_log_info|]. intros _.
  apply quiet_bind; [apply quiet_sleep | intros _; exact IH].
Qed.

Lemma call_func_run (func : @Func Call Val W) (call : Call) (s : St W) :
  call_func func call s =
    ((func call (world s)).1,
     mkSt (func call (world s)).2 (trace s ++ [EvCall])).
Proof. unfold call_func. now destruct (func call (world s)). Qed.

Lemma calls_call_func (func : @Func Call Val W) (call : Call) (s : St W) :
  calls (trace (call_func func call s).2) = S (calls (trace s)).
Proof.
  rewrite call_func_run. cbn. unfold calls.
  rewrite List.filter_app, length_app. cbn. lia.
Qed.

(** When the first pass of the gate returns a delay of zero, the decorated
    function calls the wrapped function, once and in the state the pass
    left, and returns what it returns or raises what it raises. *)
Theorem granted_pass_calls_function (fuel : nat) (func : Func) (call : Call)
    (start delay : Q) (s s1 s2 : St W) :
  time s = (Ret start, s1) ->
  first_pass settings c call start s1 delay s2 ->
  delay == 0 ->
  decorate settings (Throttled c) (S fuel) func call s =
    ((func call (world s2)).1,
     mkSt (func call (world s2)).2 (trace s2 ++ [EvCall])).
Proof.
  intros Htime Hpass Hdelay. apply truthy_false in Hdelay.
  rewrite <- call_func_run. unfold decorate, first_pass in *.
  destruct (limits c) as [minimum [kf| |ks] expire|limit]; try contradiction.
  - destruct Hpass as (_key & Hkey & Hpass).
    unfold single_limit. rewrite Hkey. unfold bind at 1. rewrite Htime.
    cbn [single_loop]. unfold bind. now rewrite Hpass, Hdelay.
  - destruct Hpass as (Hkeyed & Hpass). unfold multi_limit.
    destruct (resolve limit call) as [|l _limits] eqn:Hres; [congruence|].
    unfold bind at 1. rewrite Htime.
    cbn [multi_loop]. unfold bind. now rewrite Hpass, Hdelay.
Qed.

Lemma calls_once_quiet {A} (m : M W A) : quiet m -> calls_once m.
Proof. intros Hq s. left. apply Hq. Qed.

Lemma calls_once_bind {A B} (m : M W A) (k : A -> M W B) :
  quiet m -> (forall a, calls_once (k a)) -> calls_once (bind m k).
Proof.
  intros Hm Hk s. unfold bind. specialize (Hm s).
  destruct (m s) as [[a|e|] s1]; cbn in *; [|now left|now left].
  rewrite <- Hm. apply Hk.
Qed.

Lemma calls_once_call_func (func : @Func Call Val W) (call : Call) :
  calls_once (call_func func call).
Proof. intros s. right. apply calls_call_func. Qed.

End InvocationMore.

Section AnyDecorator.
Context {Call Val W : Type} `{Backend W}.
Variable settings : Settings.

(** Whatever the decorator, the fuel and the outcome, one invocation of the
    decorated function calls the wrapped function once or not at all. *)
Theorem called_at_most_once (d : @Decorator Call Val) (fuel : nat)
    (func : @Func Call Val W) (call : Call) :
  calls_once (decorate settings d fuel func call).
Proof.
  destruct d as [|c']; cbn [decorate]; [apply calls_once_call_func|].
  destruct (limits c') as [minimum [kf| |ks] expire|limit].
  - unfold single_limit. destruct (truthy_key (kf call));
      [|apply calls_once_call_func].
    apply calls_once_bind; [apply quiet_time|]. intros start.
    apply calls_once_bind; [apply quiet_single_loop|]. intros [|];
      [apply calls_once_call_func | apply calls_once_quiet, quiet_ret].
  - apply calls_once_quiet, quiet_raise.
  - apply calls_once_quiet, quiet_raise.
  - unfold multi_limit. destruct (resolve limit call);
      [apply calls_once_call_func|].
    apply calls_once_bind; [apply quiet_time|]. intros start.
    apply calls_once_bind; [apply quiet_multi_loop|]. intros [|];
      [apply calls_once_call_func | apply calls_once_quiet, quiet_ret].
Qed.
End AnyDecorator.

(** ** The lock protocol *)

Section Protocol.
Context {Call Val W : Type} `{Backend W}.
Variable settings : Settings.

Lemma protocol_app (held : bool) (t1 t2 : list Event) :
  protocol held (t1 ++ t2) =
    match protocol held t1 with
    | Some held' => protocol held' t2
    | None => None
    end.
Proof.
  revert held. induction t1 as [|ev t1 IH]; intros held; [reflexivity|].
  cbn. destruct ev, held; try reflexivity; apply IH.
Qed.

Lemma keeps_still {A} (held : bool) (m : M W A) :
  (forall s, (m s).2 = s) -> keeps held m.
Proof.
  intros Hm s. exists []. rewrite Hm, app_nil_r. split; reflexivity.
Qed.

Lemma keeps_event {A} (held : bool) (m : M W A) (ev : St W -> Event) :
  (forall s, trace (m s).2 = trace s ++ [ev s]) ->
  (forall s, protocol held [ev s] = Some held) ->
  keeps held m.
Proof. intros Hm Hev s. exists [ev s]. split; [apply Hm | apply Hev]. Qed.

Lemma keeps_bind {A B} (held : bool) (m : M W A) (k : A -> M W B) :
  keeps held m -> (forall a, keeps held (k a)) -> keeps held (bind m k).
Proof.
  intros Hm Hk s. unfold bind. destruct (Hm s) as (new & Htr & Hp).
  destruct (m s) as [[a|e|] s1]; cbn in *; try (exists new; now split).
  destruct (Hk a s1) as (new' & Htr' & Hp'). exists (new ++ new').
  split; [now rewrite Htr', Htr, app_assoc|].
  now rewrite protocol_app, Hp.
Qed.

Lemma keeps_time (held : bool) : keeps held (@time W _).
Proof.
  apply (keeps_event held _ (fun s => EvTime (be_time (world s)).1)).
  - intros s. unfold time. now destruct (be_time (world s)).
  - intros s. now destruct held.
Qed.

Lemma keeps_sleep (d : Q) : keeps false (@sleep W _ d).
Proof. now apply (keeps_event false _ (fun _ => EvSleep d)). Qed.

Lemma keeps_cache_get (key : string) (dflt : Q) :
  keeps true (@cache_get W _ key dflt).
Proof.
  apply (keeps_event true _
           (fun s => EvGet key dflt (be_get key dflt (world s)).1)).
  - intros s. unfold cache_get. now destruct (be_get key dflt (world s)).
  - reflexivity.
Qed.

Lemma keeps_cache_set (key : string) (value ttl : Q) :
  keeps true (@cache_set W _ key value ttl).
Proof. now apply (keeps_event true _ (fun _ => EvSet key value ttl)). Qed.

Lemma keeps_log_info (label : Label) (text : string) (seconds : Q) :
  keeps false (@log_info W settings label text seconds).
Proof.
  unfold log_info. destruct (THROTTLE_LOGGING settings).
  - now apply (keeps_event false _
                 (fun _ => EvInfo (log_message label text seconds))).
  - now apply keeps_still.
Qed.

Lemma keeps_call_func (func : @Func Call Val W) (call : Call) :
  keeps false (call_func func call).
Proof.
  apply (keeps_event false _ (fun _ => EvCall)); [|reflexivity].
  intros s. unfold call_func. now destruct (func call (world s)).
Qed.

Lemma keeps_single_gate (minimum expire : Q) (key : string) (now : Q) :
  keeps true (@single_gate W _ minimum expire key now).
Proof.
  unfold single_gate. apply keeps_bind; [apply keeps_cache_get|]. intros last.
  destruct (negb _); [|now apply keeps_still].
  apply keeps_bind; [apply keeps_cache_set|]. intros _. now apply keeps_still.
Qed.

Lemma keeps_multi_gate (now : Q) (limits : list (Q * string * Q))
    (seen : gset string) (d0 : Q) :
  keeps true (@multi_gate W _ now limits seen d0).
Proof.
  revert seen d0. induction limits as [|[[m k] e] rest IH]; intros seen d0.
  - now apply keeps_still.
  - cbn. destruct (decide (k ∈ seen)); [apply IH|].
    apply keeps_bind; [apply keeps_cache_get|]. intros last.
    destruct (truthy _); [now apply keeps_still|].
    apply keeps_bind; [apply keeps_cache_set|]. intros _. apply IH.
Qed.

Section Closure.
Variable c : @Closure Call Val.

Lemma keeps_now (label : Label) (start : Q) :
  keeps true (@_now Call Val W _ settings c label start).
Proof.
  intros s. rewrite _now_run. cbv zeta.
  destruct (Qgtb _ _); [destruct (THROTTLE_LOGGING settings)|];
    eexists; (split; [reflexivity|]); reflexivity.
Qed.

(** The body of a pass returns or raises: it does not use the fuel. *)
Lemma now_then_gate_ends (label : Label) (start : Q) (k : Q -> M W Q)
    (s : St W) :
  (forall now s0, exists d, (k now s0).1 = Ret d) ->
  (bind (_now settings c label start) k s).1 <> OutOfFuel.
Proof.
  intros Hk. unfold bind. rewrite _now_run. cbv zeta.
  destruct (Qgtb _ _); [destruct (THROTTLE_LOGGING settings); discriminate|].
  match goal with |- (k ?n ?st).1 <> _ => destruct (Hk n st) as [d Hd] end.
  rewrite Hd. discriminate.
Qed.

Lemma keeps_with_lock {A} (body : M W A) :
  keeps true body ->
  (forall s, (body s).1 <> OutOfFuel) ->
  keeps false (with_lock "throttle.lock" (lockargs c) body).
Proof.
  intros Hb Hend s. unfold with_lock, bind, acquire.
  destruct (be_lock_enter "throttle.lock" (lockargs c) (world s)) as [[|] w1].
  - unfold finally.
    destruct (Hb (mkSt w1 (trace s ++ [EvLock "throttle.lock" (lockargs c) true])))
      as (new & Htr & Hp).
    specialize (Hend (mkSt w1 (trace s ++ [EvLock "throttle.lock" (lockargs c) true]))).
    destruct (body _) as [r s2]. cbn [fst snd] in *.
    assert (Hrel : exists ok,
               trace (release "throttle.lock" s2).2 =
                 trace s2 ++ [EvUnlock "throttle.lock" ok]).
    { unfold release. destruct (be_lock_exit "throttle.lock" (world s2)) as [[|] w3];
        eexists; reflexivity. }
    destruct Hrel as [ok Hrel].
    exists ([EvLock "throttle.lock" (lockargs c) true] ++ new
              ++ [EvUnlock "throttle.lock" ok]).
    split.
    + destruct r as [a|e|]; [| |contradiction];
        destruct (release "throttle.lock" s2) as [[u|e'|] s3]; cbn [snd] in *;
        rewrite Hrel, Htr; cbn [trace]; now rewrite <- !app_assoc.
    + cbn [app protocol]. now rewrite protocol_app, Hp.
  - exists [EvLock "throttle.lock" (lockargs c) false]. split; reflexivity.
Qed.

Lemma keeps_single_pass (minimum expire : Q) (key : string) (start : Q) :
  keeps false (single_pass settings c minimum expire key start).
Proof.
  apply keeps_with_lock.
  - apply keeps_bind; [apply keeps_now|]. intros now. apply keeps_single_gate.
  - intros s. apply now_then_gate_ends. intros now s0.
    rewrite single_gate_run. eexists. reflexivity.
Qed.

Lemma keeps_multi_pass (limits : list (Q * string * Q)) (start : Q) :
  keeps false (multi_pass settings c limits start).
Proof.
  apply keeps_with_lock.
  - apply keeps_bind; [apply keeps_now|]. intros now. apply keeps_multi_gate.
  - intros s. apply now_then_gate_ends. intros now s0.
    destruct (multi_gate_shape now limits ∅ 0 s0)
      as (_ & _ & _ & d & s' & Hrun & _).
    exists d. now rewrite Hrun.
Qed.

Lemma keeps_single_loop (fuel : nat) (minimum expire : Q) (key : string)
    (start : Q) :
  keeps false (single_loop settings c fuel minimum expire key start).
Proof.
  induction fuel as [|fuel IH]; [now apply keeps_still|].
  cbn [single_loop]. apply keeps_bind; [apply keeps_single_pass|].
  intros delay. destruct (truthy delay); [|now apply keeps_still].
  destruct (negb (retry c)); [now apply keeps_still|].
  apply keeps_bind; [apply keeps_log_info|]. intros _.
  apply keeps_bind; [apply keeps_sleep | intros _; exact IH].
Qed.

Lemma keeps_multi_loop (fuel : nat) (limits : list (Q * string * Q))
    (start : Q) :
  keeps false (multi_loop settings c fuel limits start).
Proof.
  induction fuel as [|fuel IH]; [now apply keeps_still|].
  cbn [multi_loop]. apply keeps_bind; [apply keeps_multi_pass|].
  intros delay. destruct (truthy delay); [|now apply keeps_still].
  destruct (negb (retry c)); [now apply keeps_still|].
  apply keeps_bind; [apply keeps_log_info|]. intros _.
  apply keeps_bind; [apply keeps_sleep | intros _; exact IH].
Qed.
End Closure.

(** Every invocation follows the lock protocol and ends with the lock
    released, on every way out (result, marker, timeout, lock error, error
    of the wrapped function, or the fuel running out): the cache is read and
    written only between taking and releasing the lock, and sleeping,
    logging a retry and calling the wrapped function happen only outside. *)
Theorem lock_protocol (d : @Decorator Call Val) (fuel : nat)
    (func : @Func Call Val W) (call : Call) :
  keeps false (decorate settings d fuel func call).
Proof.
  destruct d as [|c]; cbn [decorate]; [apply keeps_call_func|].
  destruct (limits c) as [minimum [kf| |ks] expire|limit].
  - unfold single_limit. destruct (truthy_key (kf call));
      [|apply keeps_call_func].
    apply keeps_bind; [apply keeps_time|]. intros start.
    apply keeps_bind; [apply keeps_single_loop|]. intros [|];
      [apply keeps_call_func | now apply keeps_still].
  - now apply keeps_still.
  - now apply keeps_still.
  - unfold multi_limit. destruct (resolve limit call);
      [apply keeps_call_func|].
    apply keeps_bind; [apply keeps_time|]. intros start.
    apply keeps_bind; [apply keeps_multi_loop|]. intros [|];
      [apply keeps_call_func | now apply keeps_still].
Qed.
End Protocol.

(** ** The errors of the throttle *)

Section OwnErrors.
Context {Call Val W : Type} `{Backend W}.
Variable settings : Settings.
Variable c : @Closure Call Val.

Lemma pass_error (label : Label) (start : Q) (k : Q -> M W Q) (s s' : St W)
    (e : Exn) :
  (forall now s0, exists d, (k now s0).1 = Ret d) ->
  with_lock "throttle.lock" (lockargs c)
    (now <- _now settings c label start ;; k now) s = (Raise e, s') ->
  raised_by_throttle settings c (Some (shown label)) (trace s') e.
Proof.
  intros Hk. unfold with_lock, bind at 1, acquire.
  destruct (be_lock_enter "throttle.lock" (lockargs c) (world s)) as [[|] w1].
  2:{ intros [= <- <-]. exists (trace s). now left. }
  unfold finally, bind. rewrite _now_run. cbv zeta. cbn [world trace].
  destruct (Qgtb _ _) eqn:Hlate.
  - apply Qgtb_true in Hlate.
    destruct (THROTTLE_LOGGING settings) eqn:Hlog; unfold release;
      cbn [world trace];
      match goal with
      | |- context [be_lock_exit ?n ?w] =>
          destruct (be_lock_exit n w) as [[|] w3]
      end; intros [= <- <-]; cbn [raised_by_throttle trace].
    + split; [exact Hlog|]. split; [now destruct label|].
      split; [now destruct label|]. split; [now destruct label|].
      exists ((trace s ++ [EvLock "throttle.lock" (lockargs c) true])
                ++ [EvTime (be_time w1).1]).
      now rewrite <- !app_assoc.
    + eexists. right. reflexivity.
    + split; [exact Hlog|]. split; [reflexivity|].
      exists (trace s ++ [EvLock "throttle.lock" (lockargs c) true]),
             (be_time w1).1.
      now rewrite <- !app_assoc.
    + eexists. right. reflexivity.
  - match goal with
    | |- context [k ?n ?st] =>
        destruct (Hk n st) as [d Hd]; destruct (k n st) as [r s2]
    end.
    cbn in Hd. subst r. unfold release.
    destruct (be_lock_exit "throttle.lock" (world s2)) as [[|] w3];
      intros [= <- <-]. eexists. right. reflexivity.
Qed.

Lemma log_info_returns (label : Label) (text : string) (seconds : Q)
    (s : St W) :
  (log_info settings label text seconds s).1 = Ret tt.
Proof. unfold log_info. now destruct (THROTTLE_LOGGING settings). Qed.

Lemma single_loop_error (fuel : nat) (minimum expire : Q) (key : string)
    (start : Q) (s s' : St W) (e : Exn) :
  single_loop settings c fuel minimum expire key start s = (Raise e, s') ->
  raised_by_throttle settings c (Some (ShownKey key)) (trace s') e.
Proof.
  revert s. induction fuel as [|fuel IH]; intros s; [discriminate|].
  cbn [single_loop]. unfold bind at 1.
  destruct (single_pass settings c minimum expire key start s)
    as [[delay|e1|] s1] eqn:Hpass; [| |discriminate].
  - destruct (truthy delay); [|discriminate].
    destruct (negb (retry c)); [discriminate|]. unfold bind.
    pose proof (log_info_returns (LabelKey key) "retry in" delay s1) as Hlog.
    destruct (log_info _ _ _ _ s1) as [r s2]. cbn in Hlog. subst r.
    cbn [sleep]. apply IH.
  - intros Heq. inversion Heq; subst.
    eapply (pass_error (LabelKey key)); [|exact Hpass].
    intros now s0. rewrite single_gate_run. eexists. reflexivity.
Qed.

Lemma multi_loop_error (fuel : nat) (limits : list (Q * string * Q))
    (start : Q) (s s' : St W) (e : Exn) :
  multi_loop settings c fuel limits start s = (Raise e, s') ->
  raised_by_throttle settings c (Some (shown (LabelLimits limits)))
                     (trace s') e.
Proof.
  revert s. induction fuel as [|fuel IH]; intros s; [discriminate|].
  cbn [multi_loop]. unfold bind at 1.
  destruct (multi_pass settings c limits start s)
    as [[delay|e1|] s1] eqn:Hpass; [| |discriminate].
  - destruct (truthy delay); [|discriminate].
    destruct (negb (retry c)); [discriminate|]. unfold bind.
    pose proof (log_info_returns (LabelLimits limits) "retry in" delay s1)
      as Hlog.
    destruct (log_info _ _ _ _ s1) as [r s2]. cbn in Hlog. subst r.
    cbn [sleep]. apply IH.
  - intros Heq. inversion Heq; subst.
    eapply (pass_error (LabelLimits limits)); [|exact Hpass].
    intros now s0.
    destruct (multi_gate_shape now limits ∅ 0 s0)
      as (_ & _ & _ & d & s2 & Hrun & _).
    exists d. now rewrite Hrun.
Qed.

(** An error of the decorated function that comes before any call of the
    wrapped function is one of four.  A [ThrottleTimeout] is raised only
    past the deadline and with logging on; its message carries the text,
    the elapsed time and the key or keys of the call, and it was logged as a
    warning, then the lock was released.  A [NameError] is the missing
    [log_message] with logging off.  A [LockError] follows at once the lock
    operation that failed.  A [TypeError] is a [key] argument that is not a
    function.  Nothing else is raised. *)
Theorem throttle_own_errors (fuel : nat) (func : Func) (call : Call)
    (s s' : St W) (e : Exn) :
  decorate settings (Throttled c) fuel func call s = (Raise e, s') ->
  calls (trace s') = calls (trace s) ->
  raised_by_throttle settings c (resolved_label c call) (trace s') e.
Proof.
  unfold decorate, resolved_label.
  assert (Hcall : forall s0,
            calls (trace s0) = calls (trace s) ->
            calls (trace (call_func func call s0).2) <> calls (trace s)).
  { intros s0 Hs0. rewrite calls_call_func. lia. }
  destruct (limits c) as [minimum [kf| |ks] expire|limit].
  - unfold single_limit. destruct (truthy_key (kf call)) as [key|].
    + unfold bind at 1. pose proof (quiet_time s) as Hq1.
      destruct (time s) as [[start|e0|] s1] eqn:Htime;
        [|rewrite time_run in Htime; discriminate
         |rewrite time_run in Htime; discriminate].
      unfold bind.
      pose proof (quiet_single_loop settings c fuel minimum expire key start s1)
        as Hq2.
      destruct (single_loop _ _ _ _ _ _ _ s1) as [[[|]|e1|] s2] eqn:Hloop;
        cbn [snd] in *.
      * intros Hrun Hcalls. exfalso. apply (Hcall s2); [congruence|].
        now rewrite Hrun.
      * discriminate.
      * intros [= <- <-] _. now apply single_loop_error in Hloop.
      * discriminate.
    + intros Hrun Hcalls. exfalso. apply (Hcall s eq_refl). now rewrite Hrun.
  - intros [= <- <-] _. reflexivity.
  - intros [= <- <-] _. reflexivity.
  - unfold multi_limit. destruct (resolve limit call) as [|l _limits] eqn:Hres.
    + intros Hrun Hcalls. exfalso. apply (Hcall s eq_refl). now rewrite Hrun.
    + unfold bind at 1. pose proof (quiet_time s) as Hq1.
      destruct (time s) as [[start|e0|] s1] eqn:Htime;
        [|rewrite time_run in Htime; discriminate
         |rewrite time_run in Htime; discriminate].
      unfold bind.
      pose proof (quiet_multi_loop settings c fuel (l :: _limits) start s1)
        as Hq2.
      destruct (multi_loop _ _ _ _ _ s1) as [[[|]|e1|] s2] eqn:Hloop;
        cbn [snd] in *.
      * intros Hrun Hcalls. exfalso. apply (Hcall s2); [congruence|].
        now rewrite Hrun.
      * discriminate.
      * intros [= <- <-] _. now apply multi_loop_error in Hloop.
      * discriminate.
Qed.
End OwnErrors.

(** ** A cache that is always limited *)

Section AlwaysLimited.
Context {Call Val : Type}.
Variable settings : Settings.
Variable c : @Closure Call Val.

Lemma mock_pass_late (minimum expire : Q) (key : string) (start : Q)
    (s : St Mock.World) :
  limited_world (world s) ->
  THROTTLE_LOGGING settings = true ->
  timeout c < Mock.clock (world s) - start ->
  exists s',
    single_pass settings c minimum expire key start s =
      (Raise (ThrottleTimeout
                (mkMessage (ShownKey key) "timeout after"
                           (Mock.clock (world s) - start))), s').
Proof.
  intros (Hl & Hb & Hh) Hlog Hlate.
  destruct s as [[cl b l cache h] tr]. cbn in *. subst.
  unfold single_pass.
  rewrite pass_past_deadline; cbn; [|reflexivity|exact Hlate].
  rewrite Hlog. eexists. reflexivity.
Qed.

Lemma mock_pass_early (minimum expire : Q) (key : string) (start : Q)
    (s : St Mock.World) :
  limited_world (world s) ->
  0 < minimum ->
  Mock.clock (world s) - start <= timeout c ->
  exists delay s1,
    single_pass settings c minimum expire key start s = (Ret delay, s1)
    /\ delay == minimum /\ world s1 = world s.
Proof.
  intros (Hl & Hb & Hh) Hm Hearly.
  destruct s as [[cl b l cache h] tr]. cbn in *. subst.
  unfold single_pass.
  rewrite pass_within_deadline; cbn; [|reflexivity|exact Hearly].
  unfold finally. rewrite single_gate_run. cbn.
  assert (Hd : Qmax (cl + minimum - cl) 0 == minimum).
  { rewrite Qmax_0_pos; lra. }
  assert (Hb : Qeq_bool (Qmax (cl + minimum - cl) 0) 0 = false).
  { apply not_true_is_false. intros Hb. apply Qeq_bool_iff in Hb. lra. }
  rewrite Hb. cbn. eexists _, _. split; [reflexivity|]. split; [exact Hd|].
  reflexivity.
Qed.

Lemma steps_past (t m : Q) :
  0 < m -> exists n : nat, t < inject_Z (Z.of_nat n) * m.
Proof.
  intros Hm. pose proof (Qlt_floor (t / m)) as Hfl.
  set (z := (Qfloor (t / m) + 1)%Z) in *.
  assert (Ht : t == t / m * m) by (field; lra).
  exists (Z.to_nat z). destruct (Z.le_gt_cases z 0) as [Hz|Hz].
  - rewrite Z2Nat.nonpos by exact Hz. cbn.
    assert (inject_Z z <= 0)
      by (change 0 with (inject_Z 0); rewrite <- Zle_Qle; exact Hz).
    change (inject_Z (Z.of_nat 0)) with 0. rewrite Ht at 1.
    apply Qmult_lt_compat_r; lra.
  - rewrite Z2Nat.id by lia. rewrite Ht at 1.
    apply Qmult_lt_compat_r; assumption.
Qed.

Lemma limited_loop_times_out (n : nat) (minimum expire : Q) (key : string)
    (start : Q) :
  THROTTLE_LOGGING settings = true ->
  retry c = true ->
  0 < minimum ->
  forall (fuel : nat) (s : St Mock.World),
    limited_world (world s) ->
    Mock.clock (world s) - start <= timeout c + minimum ->
    timeout c < Mock.clock (world s) - start + inject_Z (Z.of_nat n) * minimum ->
    (n < fuel)%nat ->
    exists m s',
      single_loop settings c fuel minimum expire key start s =
        (Raise (ThrottleTimeout m), s')
      /\ timeout c < msg_seconds m
      /\ msg_seconds m <= timeout c + minimum.
Proof.
  intros Hlog Hretry Hm. induction n as [|n IH]; intros fuel s Hw Hup Hlow Hfuel;
    (destruct fuel as [|fuel]; [lia|]); cbn [single_loop]; unfold bind at 1.
  - assert (Hlate : timeout c < Mock.clock (world s) - start).
    { change (inject_Z (Z.of_nat 0)) with 0 in Hlow. lra. }
    destruct (mock_pass_late minimum expire key start s Hw Hlog Hlate)
      as [s' ->].
    eexists _, _. split; [reflexivity|]. cbn. split; lra.
  - destruct (Qlt_le_dec (timeout c) (Mock.clock (world s) - start))
      as [Hlate|Hearly].
    + destruct (mock_pass_late minimum expire key start s Hw Hlog Hlate)
        as [s' ->].
      eexists _, _. split; [reflexivity|]. cbn. split; lra.
    + destruct (mock_pass_early minimum expire key start s Hw Hm Hearly)
        as (delay & s1 & -> & Hd & Hw1).
      assert (Ht : truthy delay = true) by (apply truthy_true; lra).
      rewrite Ht, Hretry. cbn [negb]. unfold bind.
      pose proof (log_info_returns settings (LabelKey key) "retry in" delay s1)
        as Hinfo.
      assert (Hinfo' : world (log_info settings (LabelKey key) "retry in"
                                       delay s1).2 = world s1).
      { unfold log_info. now destruct (THROTTLE_LOGGING settings). }
      destruct (log_info _ _ _ _ s1) as [r s2]. cbn in Hinfo, Hinfo'. subst r.
      cbn [sleep]. apply IH.
      * cbn. rewrite Hinfo', Hw1. exact Hw.
      * cbn. rewrite Hinfo', Hw1. cbn. rewrite Qred_correct. lra.
      * cbn. rewrite Hinfo', Hw1. cbn. rewrite Qred_correct.
        rewrite Nat2Z.inj_succ in Hlow. unfold Z.succ in Hlow.
        rewrite inject_Z_plus in Hlow. change (inject_Z 1) with 1 in Hlow.
        lra.
      * lia.
Qed.

End AlwaysLimited.

(** ** The resolved limits *)

Section ResolveMore.
Context {Call : Type}.

(** The resolved limits are, in the same order, the limits whose key
    function gives a key that is not empty for the call, each with its
    interval and its expiry and with that key in place of the function. *)
Theorem resolve_keeps_keyed_limits (limit : list (Q * @KeyFn Call * Q))
    (call : Call) :
  Forall2 (fun r l => r.1.1 = l.1.1 /\ r.2 = l.2
                      /\ l.1.2 call = Some r.1.2 /\ r.1.2 <> EmptyString)
          (resolve limit call)
          (filter (fun l => truthy_key (l.1.2 call) <> None) limit).
Proof.
  induction limit as [|[[m kf] e] limit IH]; [constructor|].
  unfold resolve in *. cbn [map omap list_omap]. rewrite filter_cons.
  cbn [fst snd].
  assert (Hkey : forall k, truthy_key (kf call) = Some k ->
                           kf call = Some k /\ k <> EmptyString).
  { intros k. unfold truthy_key. destruct (kf call) as [k'|]; [|discriminate].
    destruct (decide (k' = EmptyString)); [discriminate|].
    intros [= <-]. now split. }
  destruct (truthy_key (kf call)) as [k|];
    destruct (decide _) as [Hd|Hd].
  - constructor; [|exact IH]. cbn. destruct (Hkey k eq_refl). auto.
  - exfalso. apply Hd. discriminate.
  - exfalso. now apply Hd.
  - exact IH.
Qed.
End ResolveMore.

(** ** The two ways through the deadline check *)

Section DeadlineMore.
Context {W : Type} `{Backend W} {Call Val : Type}.
Variable settings : Settings.
Variable c : @Closure Call Val.

(** A pass that takes the lock and reads a time past the deadline does not
    run its gate [k]: it releases the lock and raises.  With logging on the
    warning is logged first and the error is [ThrottleTimeout] with the
    label and the elapsed time; with logging off it is the [NameError] of
    the missing [log_message]; when the release fails it is [LockError]. *)
Theorem past_deadline_pass_stops (label : Label) (start : Q) (k : Q -> M W Q)
    (s : St W) :
  (be_lock_enter "throttle.lock" (lockargs c) (world s)).1 = true ->
  timeout c <
    (be_time (be_lock_enter "throttle.lock" (lockargs c) (world s)).2).1
    - start ->
  with_lock "throttle.lock" (lockargs c)
    (now <- _now settings c label start ;; k now) s =
    let w1 := (be_lock_enter "throttle.lock" (lockargs c) (world s)).2 in
    let now := (be_time w1).1 in
    let message := log_message label "timeout after" (now - start) in
    let released := be_lock_exit "throttle.lock" (be_time w1).2 in
    (Raise (if released.1
            then if THROTTLE_LOGGING settings
                 then ThrottleTimeout message
                 else NameError "log_message"
            else LockError),
     mkSt released.2
          (trace s
             ++ [EvLock "throttle.lock" (lockargs c) true; EvTime now]
             ++ (if THROTTLE_LOGGING settings then [EvWarning message] else [])
             ++ [EvUnlock "throttle.lock" released.1])).
Proof. apply pass_past_deadline. Qed.

(** A pass that takes the lock and reads a time within the deadline logs
    and raises no timeout: it runs its gate [k] with the time it read, the
    lock held, and releases the lock when the gate is done. *)
Theorem within_deadline_pass_runs_gate (label : Label) (start : Q)
    (k : Q -> M W Q) (s : St W) :
  (be_lock_enter "throttle.lock" (lockargs c) (world s)).1 = true ->
  (be_time (be_lock_enter "throttle.lock" (lockargs c) (world s)).2).1
    - start <= timeout c ->
  with_lock "throttle.lock" (lockargs c)
    (now <- _now settings c label start ;; k now) s =
    let w1 := (be_lock_enter "throttle.lock" (lockargs c) (world s)).2 in
    let now := (be_time w1).1 in
    finally (k now) (release "throttle.lock")
      (mkSt (be_time w1).2
            (trace s ++ [EvLock "throttle.lock" (lockargs c) true; EvTime now])).
Proof. apply pass_within_deadline. Qed.
End DeadlineMore.

(** ** Sample calls of the further properties *)

(** Throttling switched off: [throttle(0)] is accepted and the call runs
    the wrapped function. *)
Lemma disabled_is_passthrough_witness :
  THROTTLE_ENABLED SampleMore.disabled = false
  /\ exists d,
       throttle (Val := nat) SampleMore.disabled Sample.static (OneLimit 0)
                (KeyFunction Sample.static) true None None None = inr d
       /\ decorate SampleMore.disabled d 0 Sample.func tt
                   (Mock.reset 100 true true) =
            (Ret (Some 7%nat), mkSt (world (Mock.reset 100 true true)) [EvCall]).
Proof.
  split; [reflexivity|].
  apply (disabled_is_passthrough SampleMore.disabled Sample.static (OneLimit 0)
           (KeyFunction Sample.static) true None None None 0 Sample.func tt
           (Mock.reset 100 true true)).
  reflexivity.
Defined.

(** [throttle([0.5, 10])] with one key function: the second limit gets the
    default key function. *)
Lemma multi_limits_aligned_witness :
  Sample.slow_and_fast = inr (Throttled Sample.slow_and_fast_closure)
  /\ limits Sample.slow_and_fast_closure =
       Multi (imap (fun i l =>
                      (1 / l,
                       default Sample.static
                               (key_list (KeyFunction Sample.static) !! i),
                       Qmax (10 * (1 / l)) (num_or None 10)))
                   [1 # 2; 10]).
Proof.
  split; [reflexivity|].
  apply (multi_limits_aligned Sample.enabled Sample.static [1 # 2; 10]
           (KeyFunction Sample.static) true None None None
           Sample.slow_and_fast_closure).
  reflexivity.
Defined.

(** The rates 0.5 and 10 are positive, and so are their intervals and
    expiries. *)
Lemma positive_rates_positive_intervals_witness :
  positive_rates (ManyLimits [1 # 2; 10])
  /\ Forall (fun p => 0 < p.1 /\ 0 < p.2)
            (intervals Sample.slow_and_fast_closure).
Proof.
  assert (Hpos : positive_rates (ManyLimits [1 # 2; 10])).
  { repeat constructor. }
  split; [exact Hpos|].
  apply (positive_rates_positive_intervals Sample.enabled Sample.static
           (ManyLimits [1 # 2; 10]) (KeyFunction Sample.static) true None None
           None Sample.slow_and_fast_closure); [reflexivity | exact Hpos].
Defined.

(** Without a timeout, [throttle([0.5, 10])] waits at least 10 seconds and
    at least ten intervals of every limit. *)
Lemma overall_timeout_witness :
  Sample.slow_and_fast = inr (Throttled Sample.slow_and_fast_closure)
  /\ 10 <= timeout Sample.slow_and_fast_closure
  /\ Forall (fun p => 10 * p.1 <= timeout Sample.slow_and_fast_closure)
            (intervals Sample.slow_and_fast_closure).
Proof.
  split; [reflexivity|].
  apply (overall_timeout Sample.enabled Sample.static
           (ManyLimits [1 # 2; 10]) (KeyFunction Sample.static) true None None
           None Sample.slow_and_fast_closure).
  reflexivity.
Defined.

(** The first call on a fresh cache is let through at once. *)
Lemma granted_pass_calls_function_witness :
  first_pass Sample.enabled (Sample.ten_closure true) tt 100
             SampleMore.fresh_start 0 SampleMore.fresh_pass.2
  /\ (decorate Sample.enabled (Throttled (Sample.ten_closure true)) 1
               Sample.func tt (Mock.reset 100 false false)).1 =
       Ret (Some 7%nat).
Proof.
  assert (Hpass : first_pass Sample.enabled (Sample.ten_closure true) tt 100
                    SampleMore.fresh_start 0 SampleMore.fresh_pass.2).
  { exists "static"%string. split; vm_compute; reflexivity. }
  split; [exact Hpass|].
  rewrite (granted_pass_calls_function Sample.enabled (Sample.ten_closure true)
             0 Sample.func tt 100 0 (Mock.reset 100 false false)
             SampleMore.fresh_start SampleMore.fresh_pass.2);
    [reflexivity | vm_compute; reflexivity | exact Hpass | reflexivity].
Defined.

(** The timeout of [test_throttle_limited] is an error of the throttle. *)
Lemma throttle_own_errors_witness :
  SampleMore.limited_end.1 =
    Raise (ThrottleTimeout
             (mkMessage (ShownKey "static") "timeout after" (3 # 5)))
  /\ raised_by_throttle Sample.enabled (Sample.ten_closure true)
       (resolved_label (Sample.ten_closure true) tt)
       (trace SampleMore.limited_end.2)
       (ThrottleTimeout (mkMessage (ShownKey "static") "timeout after" (3 # 5))).
Proof.
  split; [reflexivity|].
  apply (throttle_own_errors Sample.enabled (Sample.ten_closure true) 10
           Sample.func tt (Mock.reset 100 false true) SampleMore.limited_end.2).
  - vm_compute. reflexivity.
  - vm_compute. reflexivity.
Defined.

(** A pass one second after the start, with a timeout of half a second. *)
Lemma past_deadline_pass_stops_witness :
  (single_pass Sample.enabled (Sample.ten_closure true) (1 / 10) 1 "static" 100
               SampleMore.late).1 =
    Raise (ThrottleTimeout (mkMessage (ShownKey "static") "timeout after"
                                      (101 - 100))).
Proof.
  unfold single_pass.
  rewrite (past_deadline_pass_stops Sample.enabled (Sample.ten_closure true)
             (LabelKey "static") 100 (single_gate (1 / 10) 1 "static")
             SampleMore.late);
    [reflexivity | reflexivity | vm_compute; reflexivity].
Defined.

(** A pass at the start of the call goes on to the gate. *)
Lemma within_deadline_pass_runs_gate_witness :
  (single_pass Sample.enabled (Sample.ten_closure true) (1 / 10) 1 "static" 100
               (Mock.reset 100 false true)).1 = Ret (Qmax (100 + 1 / 10 - 100) 0).
Proof.
  unfold single_pass.
  rewrite (within_deadline_pass_runs_gate Sample.enabled (Sample.ten_closure true)
             (LabelKey "static") 100 (single_gate (1 / 10) 1 "static")
             (Mock.reset 100 false true));
    [reflexivity | reflexivity | vm_compute; discriminate].
Defined.

